(** * CRPropa3: ownership kernel, collector, filter and instrumentation modules

    A shallow embedding of
    - [Referenced] and [ref_ptr] (crpropa/Referenced.h),
    - [ParticleCollector] (src/module/ParticleCollector.cpp),
    - [PhotonOutput1D] (src/module/PhotonOutput1D.cpp),
    - [PerformanceModule], [ParticleFilter], [EmissionMapFiller] (the part
      of src/module/PhotonOutput1D.cpp that includes crpropa/module/Tools.h),
    together with the properties the specification states about them. *)

From Stdlib Require Import ZArith List Lia Bool.
From stdpp Require Import base option list gmap.
Import ListNotations.
Open Scope Z_scope.

(** ** Machine integers

    [_referenceCount] is a [size_t] and [newRef] an [int]; the targets the
    header is written for (LP64) have a 64-bit [size_t] and a 32-bit [int].
    Conversions are written out: [size_t] wraps modulo 2^64, [int] keeps the
    low 32 bits as a two's complement number. *)

Definition size_t (z : Z) : Z := z mod 2 ^ 64.
Definition int (z : Z) : Z := (z + 2 ^ 31) mod 2 ^ 32 - 2 ^ 31.

(** ** Referenced *)

(** The three alternatives the preprocessor selects between in
    [addReference] and [removeReference]: [#if defined(OPENMP_3_1)],
    [#elif defined(__GNUC__)], [#else]. The macros are set by the build, so
    the alternative is a parameter of the model. *)
Inductive build := OPENMP_3_1 | GNUC | OMP_CRITICAL.

Record Referenced := { _referenceCount : Z }.

(** [Referenced()] and [Referenced(const Referenced&)] both start at 0. *)
Definition Referenced_new : Referenced := {| _referenceCount := 0 |}.

(** The value captured into [newRef] and the counter after the update.
    [__sync_add_and_fetch] yields the updated counter; the two OpenMP
    alternatives capture [_referenceCount++], the counter before the update. *)
Definition capture (b : build) (old new : Z) : Z :=
  int (match b with
       | GNUC => new
       | OPENMP_3_1 | OMP_CRITICAL => old
       end).

(** Whether [newRef] is the counter after the update. *)
Definition sees_update (b : build) : bool :=
  match b with
  | GNUC => true
  | OPENMP_3_1 | OMP_CRITICAL => false
  end.

(** [size_t addReference() const]: returned value and the object afterwards. *)
Definition addReference (b : build) (this : Referenced) : Z * Referenced :=
  let old := _referenceCount this in
  let new := size_t (old + 1) in
  let newRef := capture b old new in
  (size_t newRef, {| _referenceCount := new |}).

(** [size_t removeReference() const]: returned value, the object as the call
    leaves it, and whether [delete this] was executed. (The [DEBUG] warning
    on [std::cerr] is diagnostics only and is not part of the model.) *)
Definition removeReference (b : build) (this : Referenced)
  : Z * Referenced * bool :=
  let old := _referenceCount this in
  let new := size_t (old - 1) in
  let newRef := capture b old new in
  (size_t newRef, {| _referenceCount := new |}, newRef =? 0).

(** [int removeReferenceNoDelete() const { return --_referenceCount; }] *)
Definition removeReferenceNoDelete (this : Referenced) : Z * Referenced :=
  let new := size_t (_referenceCount this - 1) in
  (int new, {| _referenceCount := new |}).

Definition getReferenceCount (this : Referenced) : Z := _referenceCount this.

(** *** One object under a sequence of calls *)

Inductive call := AddRef | RemoveRef.

(** An object together with the fact that [delete this] has run on it. *)
Record lifetime := { object : Referenced; destroyed : bool }.

Definition fresh_object : lifetime :=
  {| object := Referenced_new; destroyed := false |}.

Definition do_call (b : build) (c : call) (o : Referenced) : lifetime :=
  match c with
  | AddRef => {| object := snd (addReference b o); destroyed := false |}
  | RemoveRef =>
      let '(_, o', d) := removeReference b o in
      {| object := o'; destroyed := d |}
  end.

(** Calls are applied in order. A call on an object that has already been
    deleted has no defined behaviour: the run yields [None]. *)
Fixpoint run (b : build) (cs : list call) (s : lifetime) : option lifetime :=
  match cs with
  | [] => Some s
  | c :: cs' =>
      if destroyed s then None else run b cs' (do_call b c (object s))
  end.

(** N and M: the number of [addReference] and of [removeReference] calls. *)
Fixpoint adds (cs : list call) : Z :=
  match cs with
  | [] => 0
  | AddRef :: cs' => 1 + adds cs'
  | RemoveRef :: cs' => adds cs'
  end.

Fixpoint removes (cs : list call) : Z :=
  match cs with
  | [] => 0
  | AddRef :: cs' => removes cs'
  | RemoveRef :: cs' => 1 + removes cs'
  end.

Definition delta (c : call) : Z :=
  match c with AddRef => 1 | RemoveRef => -1 end.

(** The discipline under which the count is meaningful: between two calls
    of the sequence the count, started at [n], is positive (some handle
    still holds the object). Only the last call may bring it to 0. *)
Fixpoint held_until_last (n : Z) (cs : list call) : bool :=
  match cs with
  | [] => true
  | c :: cs' =>
      match cs' with
      | [] => true
      | _ :: _ => (0 <? n + delta c) && held_until_last (n + delta c) cs'
      end
  end.

(** *** Objects on the heap and the calls made on them *)

(** A non-null [T*] is an address; a nullable pointer is an [option]. *)
Abbreviation ptr := nat (only parsing).

Inductive event :=
  | EvAddReference (p : ptr)
  | EvRemoveReference (p : ptr)
  | EvDelete (p : ptr).

(** The live [Referenced] objects and the calls executed so far, oldest
    first. An object leaves [objects] when [delete this] runs. *)
Record memory := { objects : gmap nat Referenced; events : list event }.

(** [p->addReference()]; dereferencing a pointer to no live object is
    undefined ([None]). *)
Definition call_addReference (b : build) (p : ptr) (m : memory)
  : option (Z * memory) :=
  o ← objects m !! p;
  let '(r, o') := addReference b o in
  Some (r, {| objects := <[p := o']> (objects m);
              events := events m ++ [EvAddReference p] |}).

(** [p->removeReference()] *)
Definition call_removeReference (b : build) (p : ptr) (m : memory)
  : option (Z * memory) :=
  o ← objects m !! p;
  let '(r, o', d) := removeReference b o in
  Some (r, if d
           then {| objects := delete p (objects m);
                   events := events m ++ [EvRemoveReference p; EvDelete p] |}
           else {| objects := <[p := o']> (objects m);
                   events := events m ++ [EvRemoveReference p] |}).

(** ** ref_ptr *)

Record ref_ptr := { _ptr : option nat }.

(** [ref_ptr() : _ptr(0)] *)
Definition ref_ptr_null : ref_ptr := {| _ptr := None |}.

(** [if (p) p->addReference();] and [if (p) p->removeReference();] *)
Definition addReference_if (b : build) (p : option nat) (m : memory)
  : option memory :=
  match p with
  | Some a => snd <$> call_addReference b a m
  | None => Some m
  end.

Definition removeReference_if (b : build) (p : option nat) (m : memory)
  : option memory :=
  match p with
  | Some a => snd <$> call_removeReference b a m
  | None => Some m
  end.

(** [ref_ptr(T* ptr)] *)
Definition ref_ptr_from (b : build) (p : option nat) (m : memory)
  : option (ref_ptr * memory) :=
  m' ← addReference_if b p m; Some ({| _ptr := p |}, m').

(** [ref_ptr(const ref_ptr& rp)] *)
Definition ref_ptr_copy (b : build) (rp : ref_ptr) (m : memory)
  : option (ref_ptr * memory) :=
  m' ← addReference_if b (_ptr rp) m; Some ({| _ptr := _ptr rp |}, m').

(** [~ref_ptr()]: the handle is left holding 0. *)
Definition ref_ptr_destroy (b : build) (this : ref_ptr) (m : memory)
  : option (ref_ptr * memory) :=
  m' ← removeReference_if b (_ptr this) m; Some ({| _ptr := None |}, m').

(** [ref_ptr& operator =(T* ptr)] *)
Definition ref_ptr_assign_ptr (b : build) (this : ref_ptr) (p : option nat)
    (m : memory) : option (ref_ptr * memory) :=
  if decide (_ptr this = p) then Some (this, m)
  else
    let tmp_ptr := _ptr this in
    let this' := {| _ptr := p |} in
    m1 ← addReference_if b (_ptr this') m;
    m2 ← removeReference_if b tmp_ptr m1;
    Some (this', m2).

(** [void assign(const ref_ptr<Other>& rp)], the body of both
    [operator =(const ref_ptr&)] overloads. *)
Definition ref_ptr_assign (b : build) (this rp : ref_ptr) (m : memory)
  : option (ref_ptr * memory) :=
  if decide (_ptr this = _ptr rp) then Some (this, m)
  else
    let tmp_ptr := _ptr this in
    let this' := {| _ptr := _ptr rp |} in
    m1 ← addReference_if b (_ptr this') m;
    m2 ← removeReference_if b tmp_ptr m1;
    Some (this', m2).

(** [T* release()] *)
Definition ref_ptr_release (this : ref_ptr) (m : memory)
  : option (option nat * ref_ptr * memory) :=
  match _ptr this with
  | Some a =>
      o ← objects m !! a;
      Some (Some a, {| _ptr := None |},
            {| objects := <[a := snd (removeReferenceNoDelete o)]> (objects m);
               events := events m |})
  | None => Some (None, {| _ptr := None |}, m)
  end.

(** K copies made from one handle, and a list of handles going out of scope. *)
Fixpoint make_copies (b : build) (K : nat) (rp : ref_ptr) (m : memory)
  : option (list ref_ptr * memory) :=
  match K with
  | O => Some ([], m)
  | S K' =>
      '(c, m1) ← ref_ptr_copy b rp m;
      '(cs, m2) ← make_copies b K' rp m1;
      Some (c :: cs, m2)
  end.

Fixpoint destroy_all (b : build) (hs : list ref_ptr) (m : memory)
  : option memory :=
  match hs with
  | [] => Some m
  | h :: hs' => '(_, m1) ← ref_ptr_destroy b h m; destroy_all b hs' m1
  end.

Definition deleted (p : ptr) (m : memory) : Prop := EvDelete p ∈ events m.

(** ** Candidates

    Floating-point quantities and vectors are opaque to the pipeline
    mechanics: the code only copies them, subtracts and adds durations and
    divides by unit constants. They are kept abstract, with the operations
    the modelled functions use. *)
Class Numerics (double Vector3d : Type) := {
  d_zero : double;
  d_add : double -> double -> double;
  d_sub : double -> double -> double;
  d_div : double -> double -> double;
  getR : Vector3d -> double;
  EeV : double;
  Mpc : double
}.

Section Pipeline.
Context {double Vector3d : Type} `{!Numerics double Vector3d}.
(** State of collaborators outside the candidate heap (clock, streams). *)
Context {X : Type}.
(** The externally owned accumulation structure and its one entry point. *)
Context {EmissionMap : Type}.

(** Modelled from the spec: ParticleState.h is not among the sources. The
    fields are the ones the sources read through [getId], [getEnergy] and
    [getPosition]; the identifier is an [int]. *)
Record ParticleState := {
  id : Z;
  energy : double;
  position : Vector3d
}.

(** Modelled from the spec: Candidate.h is not among the sources. Section 3
    lists the current, created and source states, the accumulated
    trajectory length, the [active] flag and the insertion-ordered sequence
    of handles to the secondaries. *)
Record Candidate := {
  current : ParticleState;
  created : ParticleState;
  source : ParticleState;
  trajectoryLength : double;
  active : bool;
  secondaries : list nat
}.

Definition setActive (b : bool) (c : Candidate) : Candidate :=
  {| current := current c; created := created c; source := source c;
     trajectoryLength := trajectoryLength c; active := b;
     secondaries := secondaries c |}.

Definition setSecondaries (ss : list nat) (c : Candidate) : Candidate :=
  {| current := current c; created := created c; source := source c;
     trajectoryLength := trajectoryLength c; active := active c;
     secondaries := ss |}.

(** Modelled from the spec: [Candidate::restart] is not among the sources.
    It "resets active=true and trajectory bookkeeping while keeping
    initial/source state": trajectory length 0, active, snapshots kept. *)
Definition restart (c : Candidate) : Candidate :=
  {| current := current c; created := created c; source := source c;
     trajectoryLength := d_zero; active := true;
     secondaries := secondaries c |}.

(** Modelled from the spec: [Candidate::clone(recursive)] is not among the
    sources. The clone is "an independent copy, optionally including the
    entire secondary subtree": a new object with the fields of the
    original, and with deep copies of the secondaries exactly when
    [recursive] is set. [fuel] bounds the depth of the recursion over the
    subtree; dereferencing a dangling handle is undefined. *)
Fixpoint clone_from (fuel : nat) (recursive : bool) (p : ptr)
    (h : gmap nat Candidate) : option (nat * gmap nat Candidate) :=
  match fuel with
  | O => None
  | S fuel' =>
      c ← h !! p;
      let q := fresh (dom h) in
      let h0 := <[q := setSecondaries [] c]> h in
      if recursive then
        '(ss, h1) ←
          (fix clone_all (l : list nat) (h : gmap nat Candidate)
             : option (list nat * gmap nat Candidate) :=
             match l with
             | [] => Some ([], h)
             | s :: l' =>
                 '(s', h') ← clone_from fuel' recursive s h;
                 '(ss', h'') ← clone_all l' h';
                 Some (s' :: ss', h'')
             end) (secondaries c) h0;
        Some (q, <[q := setSecondaries ss c]> h1)
      else Some (q, h0)
  end.

(** The subtree below a candidate is at most as deep as the heap has
    objects, unless the handles form a cycle, on which the recursion of the
    code does not end either. *)
Definition Candidate_clone (recursive : bool) (p : ptr)
    (h : gmap nat Candidate) : option (nat * gmap nat Candidate) :=
  clone_from (S (size h)) recursive p h.

(** The candidates below a handle are live and nested less than [d] deep:
    the handle is that of a live candidate and so, one level less deep, is
    each of its secondaries. Secondaries are held through [ref_ptr]s, which
    keep them live, and are appended to a candidate after they were made,
    so that they form a tree. *)
Fixpoint live_tree (d : nat) (h : gmap nat Candidate) (p : ptr) : bool :=
  match d with
  | O => false
  | S d' =>
      match h !! p with
      | Some c => forallb (live_tree d' h) (secondaries c)
      | None => false
      end
  end.

(** [c'] is a copy of [c]: the same states, trajectory length and active
    flag; the secondaries are compared apart. *)
Definition copy_of (c' c : Candidate) : Prop :=
  setSecondaries [] c' = setSecondaries [] c.

(** Everything a module call can read and change. *)
Record world := { cands : gmap nat Candidate; ext : X }.

Definition with_cands (h : gmap nat Candidate) (w : world) : world :=
  {| cands := h; ext := ext w |}.

(** The capability [process(candidate)] of a [Module] object. *)
Definition Module := nat -> world -> world.

Definition isActive (c : ptr) (w : world) : bool :=
  match cands w !! c with
  | Some cand => active cand
  | None => false
  end.

(** ** PhotonOutput1D *)

(** One output line, as the sequence of values handed to [sprintf]; the
    rendering of the numbers into characters is not modelled. *)
Record photon_line := {
  col_ID : Z; col_E : double; col_D : double;
  col_pID : Z; col_pE : double;
  col_iID : Z; col_iE : double; col_iD : double
}.

Definition format_line (c : Candidate) : photon_line :=
  {| col_ID := id (current c);
     col_E := d_div (energy (current c)) EeV;
     col_D := d_div (getR (position (current c))) Mpc;
     col_pID := id (created c);
     col_pE := d_div (energy (created c)) EeV;
     col_iID := id (source c);
     col_iE := d_div (energy (source c)) EeV;
     col_iD := d_div (getR (position (source c))) Mpc |}.

(** [void PhotonOutput1D::process(Candidate *candidate) const]; [out] is
    the sequence of buffers written to the stream so far. *)
Definition PhotonOutput1D_process (candidate : ptr)
    (h : gmap nat Candidate) (out : list photon_line)
  : option (gmap nat Candidate * list photon_line) :=
  c ← h !! candidate;
  let pid := id (current c) in
  if negb (pid =? 22) && negb (Z.abs pid =? 11) then Some (h, out)
  else
    let buffer := format_line c in
    Some (<[candidate := setActive false c]> h, out ++ [buffer]).

(** ** ParticleFilter *)

Inductive capability := Accept | Reject.

Section Filter.
(** [accept] and [reject] are supplied by the concrete condition class. *)
Variables accept reject : Module.

(** [void ParticleFilter::process(Candidate* candidate) const]; the result
    also tells which of the two capabilities was invoked. *)
Definition ParticleFilter_process (ids : gset Z) (candidate : ptr)
    (w : world) : option (capability * world) :=
  c ← cands w !! candidate;
  if decide (id (current c) ∈ ids)
  then Some (Accept, accept candidate w)
  else Some (Reject, reject candidate w).
End Filter.

Definition addId (i : Z) (ids : gset Z) : gset Z := {[i]} ∪ ids.
Definition removeId (i : Z) (ids : gset Z) : gset Z := ids ∖ {[i]}.

(** ** EmissionMapFiller *)

Section Filler.
Variable fillMap : ParticleState -> EmissionMap -> EmissionMap.

Record EmissionMapFiller := { emissionMap : option nat }.

Definition setEmissionMap (e : option nat) (f : EmissionMapFiller)
  : EmissionMapFiller := {| emissionMap := e |}.

(** [void EmissionMapFiller::process(Candidate* candidate) const]; [maps]
    holds the emission maps, which the filler does not own. *)
Definition EmissionMapFiller_process (f : EmissionMapFiller)
    (candidate : ptr) (h : gmap nat Candidate) (maps : gmap nat EmissionMap)
  : option (gmap nat EmissionMap) :=
  match emissionMap f with
  | Some e =>
      c ← h !! candidate;
      em ← maps !! e;
      Some (<[e := fillMap (source c) em]> maps)
  | None => Some maps
  end.
End Filler.

(** ** ParticleCollector *)

Record ParticleCollector := {
  container : list nat;
  nBuffer : Z;
  clone : bool;
  recursive : bool
}.

(** What the members hold when a constructor's initialiser list does not
    mention them (ParticleCollector.h, which declares them, is not among the
    sources; the constructors below never assign them in their bodies). *)
Record unset_members := {
  unset_nBuffer : Z;
  unset_clone : bool;
  unset_recursive : bool
}.

(** [ParticleCollector() : nBuffer(10e6), clone(false), recursive(false)].
    [container.reserve] is a capacity hint and changes no element. *)
Definition ParticleCollector_0 : ParticleCollector :=
  {| container := []; nBuffer := 10000000; clone := false;
     recursive := false |}.

(** [ParticleCollector(const std::size_t nBuffer)
      : clone(false), recursive(false)] *)
Definition ParticleCollector_1 (u : unset_members) (nBuffer_arg : Z)
  : ParticleCollector :=
  {| container := []; nBuffer := unset_nBuffer u; clone := false;
     recursive := false |}.

(** [ParticleCollector(const std::size_t nBuffer, const bool clone)
      : recursive(false)] *)
Definition ParticleCollector_2 (u : unset_members) (nBuffer_arg : Z)
    (clone_arg : bool) : ParticleCollector :=
  {| container := []; nBuffer := unset_nBuffer u; clone := unset_clone u;
     recursive := false |}.

(** [ParticleCollector(const std::size_t nBuffer, const bool clone,
                       const bool recursive)], with an empty initialiser
    list. *)
Definition ParticleCollector_3 (u : unset_members) (nBuffer_arg : Z)
    (clone_arg recursive_arg : bool) : ParticleCollector :=
  {| container := []; nBuffer := unset_nBuffer u; clone := unset_clone u;
     recursive := unset_recursive u |}.

Definition push_back (c : ptr) (pc : ParticleCollector) : ParticleCollector :=
  {| container := container pc ++ [c]; nBuffer := nBuffer pc;
     clone := clone pc; recursive := recursive pc |}.

(** [void ParticleCollector::process(Candidate *c) const] *)
Definition ParticleCollector_process (pc : ParticleCollector) (c : ptr)
    (h : gmap nat Candidate)
  : option (ParticleCollector * gmap nat Candidate) :=
  if clone pc then
    '(c', h') ← Candidate_clone (recursive pc) c h;
    Some (push_back c' pc, h')
  else Some (push_back c pc, h).

Definition ParticleCollector_size (pc : ParticleCollector) : nat :=
  length (container pc).

Definition setClone (b : bool) (pc : ParticleCollector) : ParticleCollector :=
  {| container := container pc; nBuffer := nBuffer pc; clone := b;
     recursive := recursive pc |}.

(** ** ModuleList *)

(** Modelled from the spec: ModuleList is not among the sources. It is the
    pipeline driver of section 4.2: an ordered list of modules, [add]
    appending one and [remove(i)] taking out the i-th. *)
Record ModuleList := { modules : list Module }.

Definition ModuleList_add (m : Module) (ml : ModuleList) : ModuleList :=
  {| modules := modules ml ++ [m] |}.

Definition ModuleList_remove (i : nat) (ml : ModuleList) : ModuleList :=
  {| modules := delete i (modules ml) |}.

Definition ModuleList_size (ml : ModuleList) : nat := length (modules ml).

(** One pass of the full chain, in declared order. *)
Definition ModuleList_process (ml : ModuleList) (c : ptr) (w : world) : world :=
  fold_left (fun w m => m c w) (modules ml) w.

(** Modelled from the spec: "run the full ordered module chain repeatedly
    until the candidate becomes inactive or a configured step budget is
    exhausted". *)
Fixpoint run_steps (budget : nat) (ml : ModuleList) (c : ptr) (w : world)
  : world :=
  match budget with
  | O => w
  | S budget' =>
      if isActive c w then run_steps budget' ml c (ModuleList_process ml c w)
      else w
  end.

(** Modelled from the spec: "once the primary candidate's own processing is
    finished, recursively apply the identical traversal to each of its
    secondaries in creation order". [depth] bounds the depth of the tree
    that is descended into. *)
Fixpoint ModuleList_run (depth budget : nat) (ml : ModuleList) (c : ptr)
    (w : world) : world :=
  let w1 := run_steps budget ml c w in
  match depth with
  | O => w1
  | S depth' =>
      match cands w1 !! c with
      | Some cand =>
          fold_left (fun w s => ModuleList_run depth' budget ml s w)
                    (secondaries cand) w1
      | None => w1
      end
  end.

(** [void ParticleCollector::getTrajectory(ModuleList* mlist, std::size_t i,
    Module *output) const]. [container[i]] outside the vector is undefined.
    The result is the module list and the world after the call, together
    with the handle [c_tmp] the pipeline was run on and the world it was
    started in. *)
Definition getTrajectory (depth budget : nat) (pc : ParticleCollector)
    (mlist : ModuleList) (i : nat) (output : Module) (w : world)
  : option (ModuleList * world * (nat * world)) :=
  stored ← container pc !! i;
  '(c_tmp, h1) ← Candidate_clone false stored (cands w);
  c ← h1 !! c_tmp;
  let w2 := with_cands (<[c_tmp := restart c]> h1) w in
  let mlist1 := ModuleList_add output mlist in
  let w3 := ModuleList_run depth budget mlist1 c_tmp w2 in
  let mlist2 := ModuleList_remove (ModuleList_size mlist1 - 1) mlist1 in
  Some (mlist2, w3, (c_tmp, w2)).

(** ** PerformanceModule *)

Record _module_info := { time : double; module : Module }.

(** The member [modules] is [perf_modules] here, ModuleList having a member
    of the same name. *)
Record PerformanceModule := {
  perf_modules : list _module_info;
  calls : Z
}.

(** [void PerformanceModule::add(Module *module)] *)
Definition PerformanceModule_add (m : Module) (pm : PerformanceModule)
  : PerformanceModule :=
  {| perf_modules := perf_modules pm ++ [{| time := d_zero; module := m |}];
     calls := calls pm |}.

Section Performance.
(** [Clock::getInstance().getMillisecond()]: the clock is read off the
    world, and running a module is what lets time pass. *)
Variable getMillisecond : world -> double.

(** The first loop of [process]: [times[i] = end - start] around each
    wrapped module, in order. *)
Fixpoint measure (ms : list _module_info) (candidate : ptr) (w : world)
  : list double * world :=
  match ms with
  | [] => ([], w)
  | m :: ms' =>
      let start := getMillisecond w in
      let w1 := module m candidate w in
      let end_ := getMillisecond w1 in
      let '(times, w2) := measure ms' candidate w1 in
      (d_sub end_ start :: times, w2)
  end.

(** The critical region: [m.time += times[i]] for every [i], then
    [calls++]; the counter is taken to be a [size_t] (its declaration is in
    Tools.h, which is not among the sources). *)
Definition merge (times : list double) (pm : PerformanceModule)
  : PerformanceModule :=
  {| perf_modules :=
       zip_with (fun m t => {| time := d_add (time m) t; module := module m |})
                (perf_modules pm) times;
     calls := size_t (calls pm + 1) |}.

(** [void PerformanceModule::process(Candidate *candidate) const] *)
Definition PerformanceModule_process (pm : PerformanceModule)
    (candidate : ptr) (w : world) : PerformanceModule * world :=
  let '(times, w') := measure (perf_modules pm) candidate w in
  (merge times pm, w').

(** The durations measured by one call, as a ghost result. *)
Definition measured (pm : PerformanceModule) (candidate : ptr) (w : world)
  : list double := fst (measure (perf_modules pm) candidate w).

(** A sequence of [process] calls, one candidate each; the result carries
    the vectors [times] of the calls, oldest first. *)
Fixpoint process_all (pm : PerformanceModule) (cs : list nat) (w : world)
  : PerformanceModule * world * list (list double) :=
  match cs with
  | [] => (pm, w, [])
  | c :: cs' =>
      let times := measured pm c w in
      let '(pm1, w1) := PerformanceModule_process pm c w in
      let '(pm2, w2, log) := process_all pm1 cs' w1 in
      (pm2, w2, times :: log)
  end.
End Performance.

(** [double total = 0; for (...) total += m.time;] of the destructor, from
    which the printed shares [m.time / total] are derived. *)
Definition teardown_total (pm : PerformanceModule) : double :=
  fold_left (fun total m => d_add total (time m)) (perf_modules pm) d_zero.

(** The sum a loop [acc += x] computes, left to right. *)
Definition d_sum (acc : double) (l : list double) : double :=
  fold_left d_add l acc.

(** Modelled from the spec: the constructor of [PerformanceModule] is
    declared in Tools.h, which is not among the sources. A new wrapper
    wraps no module and has counted no invocation. *)
Definition PerformanceModule_new : PerformanceModule :=
  {| perf_modules := []; calls := 0 |}.

Definition PerformanceModule_of (ms : list Module) : PerformanceModule :=
  fold_left (fun pm m => PerformanceModule_add m pm) ms PerformanceModule_new.

(** The durations measured for the i-th wrapped module, one per call. *)
Definition column (i : nat) (log : list (list double)) : list double :=
  omap (fun times : list double => times !! i) log.

(** ** What a module may reach

    A module is handed one candidate and reaches others only through the
    handles stored in candidates. [separated old h]: no candidate outside
    [old] holds a handle into [old]. A module is local when, for every set
    [old] of candidates that exist and every heap in which they are
    separated, handed a candidate outside [old] it leaves the candidates in
    [old] as they are and stores no handle into [old]. It may change the
    candidate it is handed and what is below it, and it may make new
    candidates, as a branching interaction does: those are outside [old],
    which holds existing candidates only. *)
Definition separated (old : gset nat) (h : gmap nat Candidate) : Prop :=
  forall r c, h !! r = Some c -> r ∉ old ->
    forall s, s ∈ secondaries c -> s ∉ old.

Definition local_module (m : Module) : Prop :=
  forall (old : gset nat) (p : nat) (w : world),
    old ⊆ dom (cands w) -> p ∉ old -> separated old (cands w) ->
    (forall r, r ∈ old -> cands (m p w) !! r = cands w !! r)
    /\ separated old (cands (m p w)).

(** The same for any step of the driver. *)
Definition keeps (old : gset nat) (f : world -> world) : Prop :=
  forall w, old ⊆ dom (cands w) -> separated old (cands w) ->
    (forall r, r ∈ old -> cands (f w) !! r = cands w !! r)
    /\ separated old (cands (f w)).

(** Three modules to run the definitions on: one deactivates the candidate
    it is handed (as an observer or a breaking condition does), one changes
    nothing, and one branches: it makes a new candidate with the states of
    the candidate it is handed and appends it to the secondaries of that
    candidate. *)
Definition deactivate : Module :=
  fun p w => with_cands (alter (setActive false) p (cands w)) w.

Definition idle : Module := fun _ w => w.

Definition branch : Module :=
  fun p w =>
    match cands w !! p with
    | Some c =>
        let q := fresh (dom (cands w)) in
        with_cands
          (<[p := setSecondaries (secondaries c ++ [q]) c]>
             (<[q := setSecondaries [] c]> (cands w))) w
    | None => w
    end.

End Pipeline.

(** Integer arithmetic standing in for the floating-point operations, to
    run the definitions on concrete data. *)
#[global] Instance integer_numerics : Numerics Z Z :=
  {| d_zero := 0; d_add := Z.add; d_sub := Z.sub; d_div := Z.div;
     getR := Z.abs; EeV := 1; Mpc := 1 |}.

(** Concrete candidates without secondaries, by particle id and active
    flag. *)
Definition state_of (i : Z) : @ParticleState Z Z :=
  {| id := i; energy := 5; position := 3 |}.

Definition candidate_of (i : Z) (a : bool) : @Candidate Z Z :=
  {| current := state_of i; created := state_of i;
     source := state_of 1000260560;
     trajectoryLength := 42; active := a; secondaries := [] |}.

(** A collector holding one finished photon, and the world it lives in. *)
Definition sample_collector : ParticleCollector :=
  {| container := [0%nat]; nBuffer := 10; clone := false; recursive := false |}.

Definition sample_world : @world Z Z unit :=
  {| cands := {[ 0%nat := candidate_of 22 false ]}; ext := tt |}.

(** A chain whose first module branches. *)
Definition branching_chain : @ModuleList Z Z unit :=
  {| modules := [branch; deactivate] |}.

(** An inactive nucleus with one secondary photon. *)
Definition finished_family : gmap nat (@Candidate Z Z) :=
  {[ 0%nat := setSecondaries [1%nat] (candidate_of 1000260560 false);
     1%nat := candidate_of 22 true ]}.

(** A nucleus with one secondary photon. *)
Definition sample_family : gmap nat (@Candidate Z Z) :=
  {[ 0%nat := setSecondaries [1%nat] (candidate_of 1000260560 true);
     1%nat := candidate_of 22 true ]}.

(** A world whose external part is the clock reading, and a module that
    takes [d] milliseconds. *)
Definition busy (d : Z) : @Module Z Z Z :=
  fun _ w => {| cands := cands w; ext := ext w + d |}.

Definition clock_ms (w : @world Z Z Z) : Z := ext w.

(** ** Further operations of the modules *)

Section Replay.
Context {double Vector3d : Type} `{!Numerics double Vector3d}.
Context {X EmissionMap : Type}.

(** [ref_ptr<Candidate> ParticleCollector::operator[](const std::size_t i)
    const]; an index outside the vector is undefined. *)
Definition ParticleCollector_at (pc : ParticleCollector) (i : nat)
  : option nat := container pc !! i.

(** [void ParticleCollector::clearContainer()] *)
Definition clearContainer (pc : ParticleCollector) : ParticleCollector :=
  {| container := []; nBuffer := nBuffer pc; clone := clone pc;
     recursive := recursive pc |}.

(** [bool ParticleCollector::getClone() const] *)
Definition getClone (pc : ParticleCollector) : bool := clone pc.

(** [process] called on each candidate of a list, in order. *)
Fixpoint ParticleCollector_process_list (pc : ParticleCollector)
    (cs : list nat) (h : gmap nat (@Candidate double Vector3d))
  : option (ParticleCollector * gmap nat Candidate) :=
  match cs with
  | [] => Some (pc, h)
  | c :: cs' =>
      '(pc', h') ← ParticleCollector_process pc c h;
      ParticleCollector_process_list pc' cs' h'
  end.

(** The loop of [void ParticleCollector::reprocess(Module *action) const]
    over the entries from the iterator on: the action is handed the entry
    itself or, in clone mode, a flat clone of it. *)
Fixpoint reprocess_from (entries : list nat) (cl : bool)
    (action : @Module double Vector3d X) (w : world) : option world :=
  match entries with
  | [] => Some w
  | e :: entries' =>
      if cl then
        '(q, h') ← Candidate_clone false e (cands w);
        reprocess_from entries' cl action (action q (with_cands h' w))
      else reprocess_from entries' cl action (action e w)
  end.

Definition ParticleCollector_reprocess (pc : ParticleCollector)
    (action : @Module double Vector3d X) (w : world) : option world :=
  reprocess_from (container pc) (clone pc) action w.

(** The test of [PhotonOutput1D::process], as the condition under which a
    record is written. *)
Definition is_electromagnetic (c : @Candidate double Vector3d) : bool :=
  (id (current c) =? 22) || (Z.abs (id (current c)) =? 11).

(** The record [PhotonOutput1D::process] writes for the candidate behind a
    handle, if it writes one. *)
Definition photon_line_of (h : gmap nat (@Candidate double Vector3d))
    (p : nat) : option photon_line :=
  c ← h !! p;
  if is_electromagnetic c then Some (format_line c) else None.

(** [PhotonOutput1D::process] called on each candidate of a list, in
    order. *)
Fixpoint PhotonOutput1D_process_list (ps : list nat)
    (h : gmap nat (@Candidate double Vector3d)) (out : list photon_line)
  : option (gmap nat Candidate * list photon_line) :=
  match ps with
  | [] => Some (h, out)
  | p :: ps' =>
      '(h', out') ← PhotonOutput1D_process p h out;
      PhotonOutput1D_process_list ps' h' out'
  end.

(** [EmissionMapFiller::process] called on each candidate of a list, in
    order. *)
Fixpoint EmissionMapFiller_process_list
    (fillMap : @ParticleState double Vector3d -> EmissionMap -> EmissionMap)
    (f : EmissionMapFiller) (ps : list nat)
    (h : gmap nat (@Candidate double Vector3d)) (maps : gmap nat EmissionMap)
  : option (gmap nat EmissionMap) :=
  match ps with
  | [] => Some maps
  | p :: ps' =>
      maps' ← EmissionMapFiller_process fillMap f p h maps;
      EmissionMapFiller_process_list fillMap f ps' h maps'
  end.

End Replay.

(** ** Programs over handles

    A program keeps its [ref_ptr] variables in a list and acts on them by
    position: copy construction of a new handle from an existing one,
    destruction, assignment between handles, assignment of the null
    pointer and [swap]. A destroyed handle holds 0 and stays in its
    place. *)
Inductive handle_op :=
  | Copy (i : nat)
  | Destroy (i : nat)
  | Assign (i j : nat)
  | Reset (i : nat)
  | Swap (i j : nat).

(** [void swap(ref_ptr& rp)]: the handle and [rp] after the call. *)
Definition ref_ptr_swap (this rp : ref_ptr) : ref_ptr * ref_ptr :=
  let tmp := _ptr this in
  ({| _ptr := _ptr rp |}, {| _ptr := tmp |}).

Definition handle_step (b : build) (op : handle_op)
    (st : list ref_ptr * memory) : option (list ref_ptr * memory) :=
  let '(hs, m) := st in
  match op with
  | Copy i =>
      h ← hs !! i;
      '(c, m') ← ref_ptr_copy b h m;
      Some (hs ++ [c], m')
  | Destroy i =>
      h ← hs !! i;
      '(h', m') ← ref_ptr_destroy b h m;
      Some (<[i := h']> hs, m')
  | Assign i j =>
      hi ← hs !! i;
      hj ← hs !! j;
      '(h', m') ← ref_ptr_assign b hi hj m;
      Some (<[i := h']> hs, m')
  | Reset i =>
      hi ← hs !! i;
      '(h', m') ← ref_ptr_assign_ptr b hi None m;
      Some (<[i := h']> hs, m')
  | Swap i j =>
      hi ← hs !! i;
      hj ← hs !! j;
      let '(hi', hj') := ref_ptr_swap hi hj in
      Some (<[j := hj']> (<[i := hi']> hs), m)
  end.

Fixpoint handle_run (b : build) (ops : list handle_op)
    (st : list ref_ptr * memory) : option (list ref_ptr * memory) :=
  match ops with
  | [] => Some st
  | op :: ops' => st' ← handle_step b op st; handle_run b ops' st'
  end.

(** Every operation names handles that exist, [n] being the number of
    handles before the first operation. *)
Fixpoint well_indexed (n : nat) (ops : list handle_op) : bool :=
  match ops with
  | [] => true
  | Copy i :: ops' => (i <? n)%nat && well_indexed (S n) ops'
  | Destroy i :: ops' => (i <? n)%nat && well_indexed n ops'
  | Assign i j :: ops' => (i <? n)%nat && (j <? n)%nat && well_indexed n ops'
  | Reset i :: ops' => (i <? n)%nat && well_indexed n ops'
  | Swap i j :: ops' => (i <? n)%nat && (j <? n)%nat && well_indexed n ops'
  end.

(** The number of handles that hold [p]. *)
Definition holds (p : nat) (h : ref_ptr) : Z :=
  if decide (_ptr h = Some p) then 1 else 0.

Fixpoint holders (p : nat) (hs : list ref_ptr) : Z :=
  match hs with
  | [] => 0
  | h :: hs' => holds p h + holders p hs'
  end.

(** The live objects are exactly the objects some handle holds, and the
    count of each is the number of its holders. *)
Definition owned_by (cnt : nat -> Z) (objs : gmap nat Referenced) : Prop :=
  forall p,
    match objs !! p with
    | Some o => _referenceCount o = cnt p /\ 0 < cnt p
    | None => cnt p = 0
    end.

Definition owned (hs : list ref_ptr) (m : memory) : Prop :=
  owned_by (fun p => holders p hs) (objects m).

(** ** Scalar grids and their binary files (GridTools)

    Of the grid class the functions use the three dimensions and
    [get(ix, iy, iz)], a reference to one cell (Grid.h is not among the
    sources): a grid is its dimensions and a value for every index triple,
    distinct triples naming distinct cells. A [float] is opaque but for what the functions do with it:
    scaling by a [double] and copying its [sizeof(float)] = 4 bytes to and
    from a stream. *)
Class Float32 (float double : Type) := {
  f_scale : float -> double -> float;
  f_bytes : float -> list Byte.byte;
  f_of_bytes : list Byte.byte -> float;
  f_bytes_length : forall x, length (f_bytes x) = 4%nat;
  f_of_bytes_bytes : forall x, f_of_bytes (f_bytes x) = x
}.

Inductive grid_error := NotFound | SizeMismatch.

Section Grids.
Context {float double : Type} `{!Float32 float double}.

Record Grid1f := {
  getNx : nat;
  getNy : nat;
  getNz : nat;
  get : nat -> nat -> nat -> float
}.

(** Assignment through the reference [grid->get(ix, iy, iz)]. *)
Definition set_cell (g : Grid1f) (ix iy iz : nat) (v : float) : Grid1f :=
  {| getNx := getNx g; getNy := getNy g; getNz := getNz g;
     get := fun x y z =>
       if decide (x = ix /\ y = iy /\ z = iz) then v else get g x y z |}.

Definition cell (g : Grid1f) (idx : nat * nat * nat) : float :=
  get g idx.1.1 idx.1.2 idx.2.

(** [for (ix ...) for (iy ...) for (iz ...) body], the counters running
    from 0 up to the bounds. *)
Definition loop3 {S : Type} (nx ny nz : nat)
    (body : nat -> nat -> nat -> S -> S) (st : S) : S :=
  fold_left (fun st ix =>
    fold_left (fun st iy =>
      fold_left (fun st iz => body ix iy iz st) (seq 0 nz) st)
      (seq 0 ny) st)
    (seq 0 nx) st.

(** The cells in the order in which the three loops visit them. *)
Definition indices (nx ny nz : nat) : list (nat * nat * nat) :=
  seq 0 nx ≫= fun ix => seq 0 ny ≫= fun iy =>
    (fun iz => (ix, iy, iz)) <$> seq 0 nz.

(** The position of a cell in that order. *)
Definition cell_number (g : Grid1f) (ix iy iz : nat) : nat :=
  (ix * getNy g + iy) * getNz g + iz.

Definition in_grid (g : Grid1f) (ix iy iz : nat) : Prop :=
  (ix < getNx g)%nat /\ (iy < getNy g)%nat /\ (iz < getNz g)%nat.

(** The loops count with [int]s: the dimensions they can count up to. *)
Definition int_dims (g : Grid1f) : Prop :=
  Z.of_nat (getNx g) < 2 ^ 31 /\ Z.of_nat (getNy g) < 2 ^ 31
  /\ Z.of_nat (getNz g) < 2 ^ 31.

Definition cells (g : Grid1f) : nat := (getNx g * getNy g * getNz g)%nat.

(** [void scaleGrid(ref_ptr<Grid1f> grid, double a)] *)
Definition scaleGrid (grid : Grid1f) (a : double) : Grid1f :=
  loop3 (getNx grid) (getNy grid) (getNz grid)
    (fun ix iy iz g => set_cell g ix iy iz (f_scale (get g ix iy iz) a))
    grid.

(** An input stream: the bytes not yet read and the fail state. *)
Record ifstream := { unread : list Byte.byte; failed : bool }.

(** [fin.read] of [sizeof(float)] bytes into [b]: four bytes replace the bytes of
    [b]; at the end of the file the bytes that are left replace the first
    bytes of [b] and the stream fails; a failed stream reads nothing. *)
Definition read_float (fin : ifstream) (b : float) : float * ifstream :=
  if failed fin then (b, fin)
  else if (4 <=? length (unread fin))%nat
  then (f_of_bytes (take 4 (unread fin)),
        {| unread := drop 4 (unread fin); failed := false |})
  else (f_of_bytes (unread fin ++ drop (length (unread fin)) (f_bytes b)),
        {| unread := []; failed := true |}).

(** [void loadGrid(ref_ptr<Grid1f> grid, std::string filename, double c)];
    [file] is the content of the file, if it can be opened. *)
Definition loadGrid (grid : Grid1f) (file : option (list Byte.byte))
    (c : double) : grid_error + Grid1f :=
  match file with
  | None => inl NotFound
  | Some bytes =>
      let len := size_t (Z.of_nat (length bytes) / 4) in
      let nx := getNx grid in
      let ny := getNy grid in
      let nz := getNz grid in
      if negb (len =? size_t (Z.of_nat nx * Z.of_nat ny * Z.of_nat nz))
      then inl SizeMismatch
      else
        inr (snd (loop3 nx ny nz
                    (fun ix iy iz '(fin, g) =>
                       let '(b, fin') := read_float fin (get g ix iy iz) in
                       (fin', set_cell g ix iy iz (f_scale b c)))
                    ({| unread := bytes; failed := false |}, grid)))
  end.

(** [void dumpGrid(ref_ptr<Grid1f> grid, std::string filename, double c)];
    [writable] tells whether the file can be opened for writing, and the
    result is what is written to it. *)
Definition dumpGrid (grid : Grid1f) (writable : bool) (c : double)
  : grid_error + list Byte.byte :=
  if writable then
    inr (loop3 (getNx grid) (getNy grid) (getNz grid)
           (fun ix iy iz fout =>
              let b := f_scale (get grid ix iy iz) c in
              fout ++ f_bytes b)
           [])
  else inl NotFound.

End Grids.

(** Four bytes standing in for a [float], to run the definitions: scaling
    by [true] keeps a value and scaling by [false] gives the zero bytes. *)
Definition four_bytes : Type :=
  (Byte.byte * Byte.byte * Byte.byte * Byte.byte)%type.

Definition zero_bytes : four_bytes :=
  (Byte.x00, Byte.x00, Byte.x00, Byte.x00).

#[global] Instance bytes_float32 : Float32 four_bytes bool :=
  {| f_scale := fun (x : four_bytes) (c : bool) => if c then x else zero_bytes;
     f_bytes := fun x : four_bytes => let '(a, b, c, d) := x in [a; b; c; d];
     f_of_bytes := fun l : list Byte.byte =>
       match l with
       | [a; b; c; d] => (a, b, c, d)
       | _ => zero_bytes
       end;
     f_bytes_length := fun x : four_bytes =>
       let '(a, b, c, d) := x in eq_refl;
     f_of_bytes_bytes := fun x : four_bytes =>
       let '(a, b, c, d) := x in eq_refl |}.

(** A grid of 2 x 1 x 2 cells. *)
Definition sample_grid : @Grid1f four_bytes :=
  {| getNx := 2; getNy := 1; getNz := 2;
     get := fun x _ z =>
       match x, z with
       | O, O => (Byte.x01, Byte.x00, Byte.x00, Byte.x00)
       | O, _ => (Byte.x02, Byte.x00, Byte.x00, Byte.x00)
       | _, O => (Byte.x03, Byte.x00, Byte.x00, Byte.x00)
       | _, _ => (Byte.x04, Byte.x00, Byte.x00, Byte.x00)
       end |}.

(** * Properties *)

(** ** Machine integers *)

Lemma size_t_small z : 0 <= z < 2 ^ 64 -> size_t z = z.
Proof. intros H. unfold size_t. apply Z.mod_small. exact H. Qed.

Lemma int_small z : - 2 ^ 31 <= z < 2 ^ 31 -> int z = z.
Proof. intros H. unfold int. rewrite Z.mod_small; lia. Qed.

Lemma size_t_int_zero z : size_t (int z) = 0 <-> int z = 0.
Proof.
  unfold size_t. split; intros H; [| rewrite H; reflexivity].
  assert (- 2 ^ 31 <= int z < 2 ^ 31) as Hr
    by (unfold int; pose proof (Z.mod_pos_bound (z + 2 ^ 31) (2 ^ 32)); lia).
  destruct (Z.eq_dec (int z) 0) as [|Hne]; [assumption | exfalso].
  destruct (Z_lt_le_dec (int z) 0).
  - replace (int z) with (int z + 2 ^ 64 + (-1) * 2 ^ 64) in H by lia.
    rewrite Z.mod_add in H by lia. rewrite Z.mod_small in H; lia.
  - rewrite Z.mod_small in H; lia.
Qed.

(** Truncation to [int] keeps a count below 2^32 apart from 0. *)
Lemma int_eqb_zero z : 0 <= z < 2 ^ 32 -> (int z =? 0) = (z =? 0).
Proof.
  intros H. unfold int.
  destruct (Z_lt_le_dec z (2 ^ 31)).
  - rewrite Z.mod_small by lia. f_equal. lia.
  - replace (z + 2 ^ 31) with (z - 2 ^ 31 + 1 * 2 ^ 32) by lia.
    rewrite Z.mod_add by lia. rewrite Z.mod_small by lia.
    transitivity false; [apply Z.eqb_neq | symmetry; apply Z.eqb_neq]; lia.
Qed.

(** ** Referenced: one call *)

(** With [__sync_add_and_fetch] the call returns the incremented count. *)
Lemma addReference_GNUC n :
  0 <= n < 2 ^ 31 - 1 ->
  addReference GNUC {| _referenceCount := n |}
  = (n + 1, {| _referenceCount := n + 1 |}).
Proof.
  intros H. unfold addReference, capture. simpl.
  rewrite (size_t_small (n + 1)) by lia.
  rewrite int_small by lia. rewrite size_t_small by lia. reflexivity.
Qed.

(** With [__sync_sub_and_fetch] the call returns the decremented count and
    deletes the object when that count is 0. *)
Lemma removeReference_GNUC n :
  0 < n < 2 ^ 31 ->
  removeReference GNUC {| _referenceCount := n |}
  = (n - 1, {| _referenceCount := n - 1 |}, n - 1 =? 0).
Proof.
  intros H. unfold removeReference, capture. simpl.
  rewrite (size_t_small (n - 1)) by lia.
  rewrite int_small by lia. rewrite size_t_small by lia. reflexivity.
Qed.

(** The counter itself is updated alike in every build. *)
Lemma addReference_count b n :
  0 <= n < 2 ^ 64 - 1 ->
  _referenceCount (snd (addReference b {| _referenceCount := n |})) = n + 1.
Proof. intros H. simpl. apply size_t_small. lia. Qed.

Lemma removeReference_count b n :
  0 < n < 2 ^ 64 ->
  _referenceCount (snd (fst (removeReference b {| _referenceCount := n |})))
  = n - 1.
Proof. intros H. simpl. apply size_t_small. lia. Qed.

(** In every build the object is deleted exactly when the returned value
    is zero. *)
Lemma removeReference_deletes_iff_zero b o :
  snd (removeReference b o) = true <-> fst (fst (removeReference b o)) = 0.
Proof.
  unfold removeReference. simpl. rewrite Z.eqb_eq.
  unfold capture. symmetry. apply size_t_int_zero.
Qed.

(** The two OpenMP alternatives capture the count before the update. *)
Lemma addReference_captures_old b n :
  b <> GNUC -> 0 <= n < 2 ^ 31 ->
  addReference b {| _referenceCount := n |}
  = (n, {| _referenceCount := n + 1 |}).
Proof.
  intros Hb H. unfold addReference, capture. simpl.
  rewrite (size_t_small (n + 1)) by lia.
  destruct b; try congruence;
    rewrite int_small by lia; rewrite size_t_small by lia; reflexivity.
Qed.

Lemma removeReference_captures_old b n :
  b <> GNUC -> 0 < n < 2 ^ 31 ->
  removeReference b {| _referenceCount := n |}
  = (n, {| _referenceCount := n - 1 |}, false).
Proof.
  intros Hb H. unfold removeReference, capture. simpl.
  rewrite (size_t_small (n - 1)) by lia.
  destruct b; try congruence;
    rewrite int_small by lia; rewrite size_t_small by lia;
    (replace (n =? 0) with false by (symmetry; apply Z.eqb_neq; lia));
    reflexivity.
Qed.

(** [newRef] is an [int] while the counter is a [size_t]: a count of
    2^32 is truncated to 0, so dropping one of 2^32 + 1 references deletes
    the object. The statements below keep counts under that bound. *)
Remark removeReference_GNUC_truncated :
  removeReference GNUC {| _referenceCount := 2 ^ 32 + 1 |}
  = (0, {| _referenceCount := 2 ^ 32 |}, true).
Proof. vm_compute. reflexivity. Qed.

(** C2, at the input where the code departs from it. Built with
    [OPENMP_3_1] defined, [addReference] on a new object returns 0, not the
    new count 1; [removeReference] on the last reference returns 1, not the
    new count 0, and does not delete the object, whose count is now 0; and
    [removeReference] on a count of 0 deletes the object while the count
    wraps to 2^64 - 1. *)
Theorem referenced_calls_OPENMP_3_1 :
  addReference OPENMP_3_1 {| _referenceCount := 0 |}
    = (0, {| _referenceCount := 1 |})
  /\ removeReference OPENMP_3_1 {| _referenceCount := 1 |}
    = (1, {| _referenceCount := 0 |}, false)
  /\ removeReference OPENMP_3_1 {| _referenceCount := 0 |}
    = (0, {| _referenceCount := 2 ^ 64 - 1 |}, true).
Proof. repeat split; vm_compute; reflexivity. Qed.

(** ** Referenced: sequences of calls *)

Lemma balance_cons c cs :
  adds (c :: cs) - removes (c :: cs) = delta c + (adds cs - removes cs).
Proof. destruct c; simpl; lia. Qed.

Lemma do_call_counted b c n :
  0 <= n < 2 ^ 32 -> 0 <= n + delta c < 2 ^ 32 ->
  do_call b c {| _referenceCount := n |}
  = {| object := {| _referenceCount := n + delta c |};
       destroyed := match c with
                    | AddRef => false
                    | RemoveRef => sees_update b && (n + delta c =? 0)
                    end |}.
Proof.
  intros Hn H. destruct c; unfold do_call, delta in *.
  - cbn [addReference snd _referenceCount].
    rewrite size_t_small by lia. reflexivity.
  - unfold removeReference, capture. cbn [_referenceCount].
    replace (n - 1) with (n + -1) by lia.
    rewrite size_t_small by lia.
    destruct b; cbn [sees_update andb]; rewrite int_eqb_zero by lia;
      try reflexivity;
      (replace (n =? 0) with false by (symmetry; apply Z.eqb_neq; lia));
      reflexivity.
Qed.

(** A sequence of calls under the discipline, from a count [n]. *)
Lemma run_from b cs : forall n,
  0 <= n ->
  n + Z.of_nat (length cs) < 2 ^ 32 ->
  0 <= n + (adds cs - removes cs) ->
  held_until_last n cs = true ->
  run b cs {| object := {| _referenceCount := n |}; destroyed := false |}
  = Some {| object := {| _referenceCount := n + (adds cs - removes cs) |};
            destroyed := match cs with
                         | [] => false
                         | _ :: _ =>
                             sees_update b && (n + (adds cs - removes cs) =? 0)
                         end |}.
Proof.
  induction cs as [|c cs IH]; intros n Hn Hlen Hbal Hheld.
  - simpl. rewrite Z.add_0_r. reflexivity.
  - rewrite balance_cons in *. cbn [run destroyed object].
    destruct cs as [|c' cs'].
    + simpl in *. rewrite do_call_counted by (destruct c; simpl in *; lia).
      replace (n + (delta c + (0 - 0))) with (n + delta c) by lia.
      destruct c; [|reflexivity].
      simpl. replace (n + 1 =? 0) with false
        by (symmetry; apply Z.eqb_neq; lia).
      rewrite andb_false_r. reflexivity.
    + cbn [held_until_last] in Hheld.
      apply andb_prop in Hheld as [Hpos Hheld]. apply Z.ltb_lt in Hpos.
      cbn [length] in Hlen.
      rewrite do_call_counted by (destruct c; simpl in *; lia).
      replace (match c with
               | AddRef => false
               | RemoveRef => sees_update b && (n + delta c =? 0)
               end) with false.
      2:{ destruct c; [reflexivity|]. symmetry.
          replace (n + delta RemoveRef =? 0) with false
            by (symmetry; apply Z.eqb_neq; lia).
          apply andb_false_r. }
      rewrite IH; [| lia | destruct c; simpl in *; lia | lia | exact Hheld].
      rewrite Z.add_assoc. reflexivity.
Qed.

(** In the two OpenMP alternatives the same sequences never delete the
    object, not even when the last handle is dropped (N = M): the defect
    shown for single calls, seen over a lifetime. *)
Lemma referenced_calls_leak (b : build) (cs : list call) :
  b <> GNUC ->
  Z.of_nat (length cs) < 2 ^ 32 ->
  removes cs <= adds cs ->
  held_until_last 0 cs = true ->
  run b cs fresh_object
  = Some {| object := {| _referenceCount := adds cs - removes cs |};
            destroyed := false |}.
Proof.
  intros Hb Hlen HNM Hheld. unfold fresh_object, Referenced_new.
  rewrite run_from by (try assumption; lia).
  rewrite Z.add_0_l. destruct cs; [reflexivity|].
  destruct b; try congruence; reflexivity.
Qed.

(** C4, as amended. In the build that uses [__sync_add_and_fetch] and
    [__sync_sub_and_fetch], for a sequence of N [addReference] and M
    [removeReference] calls (N >= M, fewer than 2^32 calls) on a new object
    in which the count is positive between any two calls, every call is
    made on a live object,
    the final count is N - M, and the object is deleted exactly when the
    last call brings the count to 0, that is, when N = M. *)
Theorem referenced_calls_balance (cs : list call) :
  Z.of_nat (length cs) < 2 ^ 32 ->
  removes cs <= adds cs ->
  held_until_last 0 cs = true ->
  run GNUC cs fresh_object
  = Some {| object := {| _referenceCount := adds cs - removes cs |};
            destroyed := match cs with
                         | [] => false
                         | _ :: _ => adds cs =? removes cs
                         end |}.
Proof.
  intros Hlen HNM Hheld. unfold fresh_object, Referenced_new.
  rewrite run_from by (try assumption; lia).
  destruct cs; [reflexivity|].
  rewrite Z.add_0_l. cbn [sees_update andb]. do 2 f_equal. destruct (Z.eqb_spec (adds (c :: cs)) (removes (c :: cs)));
    [apply Z.eqb_eq | apply Z.eqb_neq]; lia.
Qed.

Lemma referenced_calls_balance_witness :
  run GNUC [AddRef; AddRef; RemoveRef; AddRef; RemoveRef; RemoveRef]
      fresh_object
  = Some {| object := {| _referenceCount := 0 |}; destroyed := true |}.
Proof.
  apply (referenced_calls_balance
           [AddRef; AddRef; RemoveRef; AddRef; RemoveRef; RemoveRef]).
  - simpl. lia.
  - simpl. lia.
  - reflexivity.
Defined.

(** C4, as stated, fails. Two [addReference] and one [removeReference]
    (N = 2 >= M = 1) leave the count at 1 and the object alive: it is not
    destroyed once, but never. In the order add, remove, add the object is
    deleted by the second call, so the third call acts on a deleted object
    and no live object with count N - M = 1 remains. *)
Lemma referenced_calls_counterexample :
  (removes [AddRef; AddRef; RemoveRef] <= adds [AddRef; AddRef; RemoveRef]
   /\ ~ exists s, run GNUC [AddRef; AddRef; RemoveRef] fresh_object = Some s
                  /\ destroyed s = true)
  /\ (removes [AddRef; RemoveRef; AddRef] <= adds [AddRef; RemoveRef; AddRef]
      /\ ~ exists s, run GNUC [AddRef; RemoveRef; AddRef] fresh_object = Some s
                     /\ _referenceCount (object s) = 2 - 1).
Proof.
  split; (split; [simpl; lia |]); intros [s [Hrun Hs]];
    vm_compute in Hrun; [| discriminate].
  injection Hrun as <-. discriminate.
Qed.

(** ** ref_ptr *)

Lemma addReference_if_live b p m o :
  objects m !! p = Some o ->
  addReference_if b (Some p) m
  = Some {| objects := <[p := snd (addReference b o)]> (objects m);
            events := events m ++ [EvAddReference p] |}.
Proof.
  intros Hp. unfold addReference_if, call_addReference.
  rewrite Hp. reflexivity.
Qed.

Lemma removeReference_if_live b p m o :
  objects m !! p = Some o ->
  removeReference_if b (Some p) m
  = Some (if snd (removeReference b o)
          then {| objects := delete p (objects m);
                  events := events m ++ [EvRemoveReference p; EvDelete p] |}
          else {| objects := <[p := snd (fst (removeReference b o))]> (objects m);
                  events := events m ++ [EvRemoveReference p] |}).
Proof.
  intros Hp. unfold removeReference_if, call_removeReference.
  rewrite Hp. reflexivity.
Qed.

(** A decrement that leaves other references never deletes, in any build:
    neither the count before nor the count after the update is 0. *)
Lemma removeReference_shared b n :
  1 < n < 2 ^ 32 ->
  snd (removeReference b {| _referenceCount := n |}) = false
  /\ snd (fst (removeReference b {| _referenceCount := n |}))
     = {| _referenceCount := n - 1 |}.
Proof.
  intros H. unfold removeReference, capture. simpl.
  rewrite (size_t_small (n - 1)) by lia. split; [|reflexivity].
  destruct b; rewrite int_eqb_zero by lia; apply Z.eqb_neq; lia.
Qed.

Lemma make_copies_count b p K : forall n m,
  objects m !! p = Some {| _referenceCount := n |} ->
  0 <= n -> n + Z.of_nat K < 2 ^ 64 ->
  make_copies b K {| _ptr := Some p |} m
  = Some (replicate K {| _ptr := Some p |},
          {| objects := <[p := {| _referenceCount := n + Z.of_nat K |}]> (objects m);
             events := events m ++ replicate K (EvAddReference p) |}).
Proof.
  induction K as [|K IH]; intros n m Hp Hn Hlt.
  - simpl. rewrite Z.add_0_r, insert_id by exact Hp.
    rewrite app_nil_r. destruct m; reflexivity.
  - cbn [make_copies]. unfold ref_ptr_copy. cbn [_ptr].
    rewrite (addReference_if_live _ _ _ _ Hp).
    cbn [addReference snd _referenceCount].
    rewrite (size_t_small (n + 1)) by lia. cbn [mbind option_bind].
    rewrite (IH (n + 1)); cbn [objects events].
    + rewrite insert_insert_eq, <- app_assoc. cbn [mbind option_bind].
      replace (n + 1 + Z.of_nat K) with (n + Z.of_nat (S K)) by lia.
      reflexivity.
    + apply lookup_insert_eq.
    + lia.
    + lia.
Qed.

Lemma destroy_all_count b p K : forall n m,
  objects m !! p = Some {| _referenceCount := n + Z.of_nat K |} ->
  1 <= n -> n + Z.of_nat K < 2 ^ 32 ->
  destroy_all b (replicate K {| _ptr := Some p |}) m
  = Some {| objects := <[p := {| _referenceCount := n |}]> (objects m);
            events := events m ++ replicate K (EvRemoveReference p) |}.
Proof.
  induction K as [|K IH]; intros n m Hp Hn Hlt.
  - simpl. rewrite Z.add_0_r in Hp. rewrite insert_id by exact Hp.
    rewrite app_nil_r. destruct m; reflexivity.
  - cbn [replicate destroy_all]. unfold ref_ptr_destroy. cbn [_ptr].
    rewrite (removeReference_if_live _ _ _ _ Hp).
    destruct (removeReference_shared b (n + Z.of_nat (S K))) as [Hd Ho];
      [lia|]. rewrite Hd, Ho. cbn [mbind option_bind].
    rewrite (IH n); cbn [objects events].
    + rewrite insert_insert_eq, <- app_assoc. reflexivity.
    + rewrite lookup_insert_eq. do 2 f_equal. lia.
    + lia.
    + lia.
Qed.

(** C5. From a handle that is the only owner of an object (count 1), K
    copies leave the count at K + 1, and destroying the K copies brings it
    back to 1; the only calls made are K increments followed by K
    decrements, none of which deletes the object. This holds in every
    build, for counts below 2^32, which the truncation to [int] keeps
    apart from 0. *)
Theorem ref_ptr_copies (b : build) (K : nat) (p : nat) (m : memory) :
  Z.of_nat K + 1 < 2 ^ 32 ->
  objects m !! p = Some {| _referenceCount := 1 |} ->
  exists m1 m2,
    make_copies b K {| _ptr := Some p |} m
      = Some (replicate K {| _ptr := Some p |}, m1)
    /\ objects m1 !! p = Some {| _referenceCount := Z.of_nat K + 1 |}
    /\ destroy_all b (replicate K {| _ptr := Some p |}) m1 = Some m2
    /\ objects m2 !! p = Some {| _referenceCount := 1 |}
    /\ objects m2 = objects m
    /\ events m2 = events m ++ replicate K (EvAddReference p)
                            ++ replicate K (EvRemoveReference p).
Proof.
  intros HK Hp.
  pose proof (make_copies_count b p K 1 m Hp ltac:(lia) ltac:(lia)) as Hmk.
  eexists. eexists. split; [exact Hmk|].
  assert (objects
            {| objects := <[p := {| _referenceCount := 1 + Z.of_nat K |}]> (objects m);
               events := events m ++ replicate K (EvAddReference p) |} !! p
          = Some {| _referenceCount := 1 + Z.of_nat K |}) as Hp1
    by apply lookup_insert_eq.
  split; [rewrite Hp1; do 2 f_equal; lia|].
  rewrite (destroy_all_count b p K 1 _ Hp1) by lia. cbn [objects events].
  rewrite insert_insert_eq, insert_id by exact Hp.
  rewrite <- app_assoc. repeat split. exact Hp.
Qed.

Lemma ref_ptr_copies_witness :
  exists m1 m2,
    make_copies GNUC 3 {| _ptr := Some 7%nat |}
        {| objects := {[ 7%nat := {| _referenceCount := 1 |} ]}; events := [] |}
      = Some (replicate 3 {| _ptr := Some 7%nat |}, m1)
    /\ objects m1 !! 7%nat = Some {| _referenceCount := 4 |}
    /\ destroy_all GNUC (replicate 3 {| _ptr := Some 7%nat |}) m1 = Some m2
    /\ objects m2 !! 7%nat = Some {| _referenceCount := 1 |}
    /\ objects m2 = {[ 7%nat := {| _referenceCount := 1 |} ]}
    /\ events m2 = [] ++ replicate 3 (EvAddReference 7)
                      ++ replicate 3 (EvRemoveReference 7).
Proof.
  refine (ref_ptr_copies GNUC 3 7
            {| objects := {[ 7%nat := {| _referenceCount := 1 |} ]};
               events := [] |} _ _).
  - simpl. lia.
  - reflexivity.
Defined.

Lemma assign_bodies_agree b this rp m :
  ref_ptr_assign b this rp m = ref_ptr_assign_ptr b this (_ptr rp) m.
Proof. reflexivity. Qed.

Lemma removeReference_if_events b p m o :
  objects m !! p = Some o ->
  exists m' tail,
    removeReference_if b (Some p) m = Some m'
    /\ events m' = events m ++ EvRemoveReference p :: tail
    /\ (tail = [] \/ tail = [EvDelete p])
    /\ forall q, q <> p -> objects m' !! q = objects m !! q.
Proof.
  intros Hp. rewrite (removeReference_if_live _ _ _ _ Hp).
  destruct (snd (removeReference b o)); eexists; eexists;
    (split; [reflexivity|]); cbn [objects events].
  - split; [reflexivity|]. split; [right; reflexivity|].
    intros q Hq. apply lookup_delete_ne. congruence.
  - split; [reflexivity|]. split; [left; reflexivity|].
    intros q Hq. apply lookup_insert_ne. congruence.
Qed.

(** C10. Assigning to a handle the pointer it already holds, through
    [operator =(T* ptr)] or through [assign] (so also assigning a handle to
    itself), returns at once: no call is made on the object, whose count
    and existence are untouched. For two distinct live objects, the new
    object's [addReference] is called first and the old object's
    [removeReference] second, and the handle ends up holding the new
    pointer. *)
Theorem ref_ptr_assignment (b : build) (this : ref_ptr) (m : memory) :
  ref_ptr_assign_ptr b this (_ptr this) m = Some (this, m)
  /\ ref_ptr_assign b this this m = Some (this, m)
  /\ (forall rp, _ptr rp = _ptr this ->
        ref_ptr_assign b this rp m = Some (this, m))
  /\ (forall old new o_old o_new,
        _ptr this = Some old -> old <> new ->
        objects m !! old = Some o_old ->
        objects m !! new = Some o_new ->
        exists m' tail,
          ref_ptr_assign_ptr b this (Some new) m
            = Some ({| _ptr := Some new |}, m')
          /\ ref_ptr_assign b this {| _ptr := Some new |} m
            = Some ({| _ptr := Some new |}, m')
          /\ events m' = events m ++ EvAddReference new
                                  :: EvRemoveReference old :: tail
          /\ (tail = [] \/ tail = [EvDelete old])
          /\ objects m' !! new = Some (snd (addReference b o_new))).
Proof.
  assert (forall rp, _ptr rp = _ptr this ->
            ref_ptr_assign b this rp m = Some (this, m)) as Hsame.
  { intros rp Hrp. unfold ref_ptr_assign. rewrite decide_True by congruence.
    reflexivity. }
  split; [| split; [| split]].
  - unfold ref_ptr_assign_ptr. rewrite decide_True by reflexivity. reflexivity.
  - apply Hsame. reflexivity.
  - exact Hsame.
  - intros old new o_old o_new Hthis Hne Hold Hnew.
    rewrite assign_bodies_agree. cbn [_ptr].
    unfold ref_ptr_assign_ptr. rewrite Hthis.
    rewrite decide_False by congruence. cbn [_ptr].
    rewrite (addReference_if_live _ _ _ _ Hnew). cbn [mbind option_bind].
    set (m1 := {| objects := <[new := snd (addReference b o_new)]> (objects m);
                  events := events m ++ [EvAddReference new] |}).
    assert (objects m1 !! old = Some o_old) as Hold1.
    { unfold m1. cbn [objects]. rewrite lookup_insert_ne by congruence.
      exact Hold. }
    destruct (removeReference_if_events b old m1 o_old Hold1)
      as (m' & tail & Hrm & Hev & Htail & Hframe).
    exists m', tail. rewrite Hrm. cbn [mbind option_bind].
    split; [reflexivity|]. split; [reflexivity|].
    split; [| split; [exact Htail|]].
    + rewrite Hev. unfold m1. cbn [events]. rewrite <- app_assoc. reflexivity.
    + rewrite Hframe by congruence. unfold m1. cbn [objects].
      apply lookup_insert_eq.
Qed.

Lemma ref_ptr_assignment_witness :
  exists m' tail,
    ref_ptr_assign_ptr GNUC {| _ptr := Some 1%nat |} (Some 2%nat)
        {| objects := {[ 1%nat := {| _referenceCount := 1 |};
                         2%nat := {| _referenceCount := 1 |} ]};
           events := [] |}
      = Some ({| _ptr := Some 2%nat |}, m')
    /\ ref_ptr_assign GNUC {| _ptr := Some 1%nat |} {| _ptr := Some 2%nat |}
        {| objects := {[ 1%nat := {| _referenceCount := 1 |};
                         2%nat := {| _referenceCount := 1 |} ]};
           events := [] |}
      = Some ({| _ptr := Some 2%nat |}, m')
    /\ events m' = [] ++ EvAddReference 2 :: EvRemoveReference 1 :: tail
    /\ (tail = [] \/ tail = [EvDelete 1%nat])
    /\ objects m' !! 2%nat
       = Some (snd (addReference GNUC {| _referenceCount := 1 |})).
Proof.
  refine (proj2 (proj2 (proj2
            (ref_ptr_assignment GNUC {| _ptr := Some 1%nat |}
               {| objects := {[ 1%nat := {| _referenceCount := 1 |};
                                2%nat := {| _referenceCount := 1 |} ]};
                  events := [] |})))
            1%nat 2%nat {| _referenceCount := 1 |} {| _referenceCount := 1 |}
            _ _ _ _).
  - reflexivity.
  - lia.
  - reflexivity.
  - reflexivity.
Defined.

(** ** Modules *)

Section PipelineProperties.
Context {double Vector3d : Type} `{!Numerics double Vector3d}.
Context {X EmissionMap : Type}.

Local Abbreviation heap := (gmap nat (@Candidate double Vector3d)).
Local Abbreviation world := (@world double Vector3d X).
Local Abbreviation Module := (@Module double Vector3d X).

(** C9. When the current id is not 22 and its absolute value is not 11,
    [PhotonOutput1D::process] returns with the output stream and every
    candidate, the processed one and its active flag included, as they
    were. For the ids 22, 11 and -11 it appends one record to the stream
    and sets the candidate inactive, changing nothing else. *)
Theorem PhotonOutput1D_process_selects (candidate : nat) (h : heap)
    (out : list photon_line) (c : Candidate) :
  h !! candidate = Some c ->
  (id (current c) <> 22 -> Z.abs (id (current c)) <> 11 ->
     PhotonOutput1D_process candidate h out = Some (h, out))
  /\ (id (current c) = 22 \/ id (current c) = 11 \/ id (current c) = -11 ->
        PhotonOutput1D_process candidate h out
        = Some (<[candidate := setActive false c]> h, out ++ [format_line c])
        /\ active (setActive false c) = false).
Proof.
  intros Hc. unfold PhotonOutput1D_process. rewrite Hc. cbn [mbind option_bind].
  split.
  - intros H22 H11.
    apply Z.eqb_neq in H22. apply Z.eqb_neq in H11.
    rewrite H22, H11. reflexivity.
  - intros Hid. split; [|reflexivity].
    destruct Hid as [-> | [-> | ->]]; reflexivity.
Qed.

(** C6. [ParticleFilter::process] invokes [accept] exactly when the current
    id of the candidate is in the set, and [reject] exactly when it is
    not; the world afterwards is the one the invoked capability leaves. *)
Theorem ParticleFilter_process_membership (accept reject : Module)
    (ids : gset Z) (candidate : nat) (w : world) (c : Candidate) :
  cands w !! candidate = Some c ->
  exists cap,
    ParticleFilter_process accept reject ids candidate w
    = Some (cap, match cap with
                 | Accept => accept candidate w
                 | Reject => reject candidate w
                 end)
    /\ (cap = Accept <-> id (current c) ∈ ids)
    /\ (cap = Reject <-> id (current c) ∉ ids).
Proof.
  intros Hc. unfold ParticleFilter_process. rewrite Hc.
  cbn [mbind option_bind].
  destruct (decide (id (current c) ∈ ids)) as [Hin | Hout].
  - exists Accept. split; [reflexivity|]. split; split; try done.
  - exists Reject. split; [reflexivity|]. split; split; try done.
Qed.

End PipelineProperties.

Lemma PhotonOutput1D_process_selects_witness :
  PhotonOutput1D_process (Numerics0 := integer_numerics) 0
      {[ 0%nat := candidate_of 1000010010 true ]} []
  = Some ({[ 0%nat := candidate_of 1000010010 true ]}, [])
  /\ PhotonOutput1D_process (Numerics0 := integer_numerics) 0
       {[ 0%nat := candidate_of (-11) true ]} []
     = Some (<[ 0%nat := setActive false (candidate_of (-11) true) ]>
               {[ 0%nat := candidate_of (-11) true ]},
             [] ++ [format_line (Numerics0 := integer_numerics)
                      (candidate_of (-11) true)]).
Proof.
  split.
  - refine (proj1 (PhotonOutput1D_process_selects (Numerics0 := integer_numerics)
                     0 {[ 0%nat := candidate_of 1000010010 true ]} []
                     (candidate_of 1000010010 true) _) _ _).
    + reflexivity.
    + simpl. lia.
    + simpl. lia.
  - refine (proj1 (proj2 (PhotonOutput1D_process_selects
                     (Numerics0 := integer_numerics)
                     0 {[ 0%nat := candidate_of (-11) true ]} []
                     (candidate_of (-11) true) _) _)).
    + reflexivity.
    + right. right. reflexivity.
Defined.

Lemma ParticleFilter_process_membership_witness :
  exists cap,
    ParticleFilter_process (X := unit) deactivate idle {[ 11; -11; 22 ]} 0
        {| cands := {[ 0%nat := candidate_of 22 true ]}; ext := tt |}
    = Some (cap, match cap with
                 | Accept => deactivate 0%nat
                     {| cands := {[ 0%nat := candidate_of 22 true ]}; ext := tt |}
                 | Reject => idle 0%nat
                     {| cands := {[ 0%nat := candidate_of 22 true ]}; ext := tt |}
                 end)
    /\ (cap = Accept <-> id (current (candidate_of 22 true)) ∈ ({[ 11; -11; 22 ]} : gset Z))
    /\ (cap = Reject <-> id (current (candidate_of 22 true)) ∉ ({[ 11; -11; 22 ]} : gset Z)).
Proof.
  refine (ParticleFilter_process_membership (X := unit) deactivate idle
            {[ 11; -11; 22 ]} 0
            {| cands := {[ 0%nat := candidate_of 22 true ]}; ext := tt |}
            (candidate_of 22 true) _).
  reflexivity.
Defined.

(** ** ParticleCollector *)

(** The default and the one-argument constructor set both flags; the
    two-argument constructor sets [recursive]. *)
Lemma ParticleCollector_initialised_flags u n c :
  clone ParticleCollector_0 = false
  /\ recursive ParticleCollector_0 = false
  /\ clone (ParticleCollector_1 u n) = false
  /\ recursive (ParticleCollector_1 u n) = false
  /\ recursive (ParticleCollector_2 u n c) = false.
Proof. repeat split. Qed.

(** The two kinds of clone on a nucleus with one secondary: the flat clone
    has no secondaries, the recursive clone has a copy of the secondary; the
    originals are untouched by both. *)
Example Candidate_clone_flat_run :
  exists q h,
    Candidate_clone false 0 sample_family = Some (q, h)
    /\ q <> 0%nat /\ q <> 1%nat
    /\ h !! q = Some (candidate_of 1000260560 true)
    /\ h !! 0%nat = sample_family !! 0%nat
    /\ h !! 1%nat = sample_family !! 1%nat.
Proof.
  eexists. eexists. split; [vm_compute; reflexivity|].
  repeat split; discriminate.
Qed.

Example Candidate_clone_recursive_run :
  exists q q' h,
    Candidate_clone true 0 sample_family = Some (q, h)
    /\ q <> 0%nat /\ q <> 1%nat /\ q' <> 0%nat /\ q' <> 1%nat /\ q <> q'
    /\ h !! q = Some (setSecondaries [q'] (candidate_of 1000260560 true))
    /\ h !! q' = Some (candidate_of 22 true)
    /\ h !! 0%nat = sample_family !! 0%nat
    /\ h !! 1%nat = sample_family !! 1%nat.
Proof.
  eexists. eexists. eexists. split; [vm_compute; reflexivity|].
  split; [discriminate|]. split; [discriminate|].
  instantiate (1 := 3%nat). repeat split; discriminate.
Qed.

(** C1, at the inputs where the code departs from it. The constructors that
    take [clone] (and [recursive]) do not store them: the members keep
    whatever they held. Constructed with [clone = true] over members
    holding [false], the collector stores the handle of the live candidate
    itself; constructed with [clone = false, recursive = false] over
    members holding [true], it stores a new object, a clone. *)
Theorem ParticleCollector_flags_not_stored :
  (forall u n c r,
      clone (ParticleCollector_3 u n c r) = unset_clone u
      /\ recursive (ParticleCollector_3 u n c r) = unset_recursive u)
  /\ (forall u n c, clone (ParticleCollector_2 u n c) = unset_clone u)
  /\ (let u := {| unset_nBuffer := 0; unset_clone := false;
                  unset_recursive := false |} in
      ParticleCollector_process (ParticleCollector_2 u 1000 true) 0
          {[ 0%nat := candidate_of 22 true ]}
      = Some ({| container := [0%nat]; nBuffer := 0; clone := false;
                 recursive := false |},
              {[ 0%nat := candidate_of 22 true ]}))
  /\ (let u := {| unset_nBuffer := 0; unset_clone := true;
                  unset_recursive := true |} in
      exists q h,
        ParticleCollector_process (ParticleCollector_3 u 1000 false false) 0
            {[ 0%nat := candidate_of 22 true ]}
        = Some ({| container := [q]; nBuffer := 0; clone := true;
                   recursive := true |}, h)
        /\ q <> 0%nat
        /\ h !! q = Some (candidate_of 22 true)).
Proof.
  split; [intros; split; reflexivity|].
  split; [intros; reflexivity|].
  split; [reflexivity|].
  eexists. eexists. split; [vm_compute; reflexivity|].
  split; [discriminate | reflexivity].
Qed.

Section CollectorProperties.
Context {double Vector3d : Type} `{!Numerics double Vector3d}.
Context {X EmissionMap : Type}.

Local Abbreviation heap := (gmap nat (@Candidate double Vector3d)).
Local Abbreviation world := (@world double Vector3d X).
Local Abbreviation Module := (@Module double Vector3d X).

Lemma Candidate_clone_flat (p : nat) (h : heap) (c : Candidate) :
  h !! p = Some c ->
  Candidate_clone false p h
  = Some (fresh (dom h), <[fresh (dom h) := setSecondaries [] c]> h).
Proof.
  intros Hp. unfold Candidate_clone. cbn [clone_from].
  rewrite Hp. reflexivity.
Qed.

Lemma push_back_size (c : nat) (pc : ParticleCollector) :
  ParticleCollector_size (push_back c pc) = S (ParticleCollector_size pc).
Proof.
  unfold ParticleCollector_size, push_back. cbn [container].
  rewrite length_app. simpl. lia.
Qed.

(** [process] follows the members [clone] and [recursive]. *)
Lemma ParticleCollector_process_shares (pc : ParticleCollector) (c : nat)
    (h : heap) :
  clone pc = false ->
  ParticleCollector_process pc c h = Some (push_back c pc, h).
Proof.
  intros Hclone. unfold ParticleCollector_process. rewrite Hclone. reflexivity.
Qed.

Lemma ParticleCollector_process_clones (pc : ParticleCollector) (c : nat)
    (h : heap) (cand : Candidate) :
  clone pc = true -> recursive pc = false -> h !! c = Some cand ->
  ParticleCollector_process pc c h
  = Some (push_back (fresh (dom h)) pc,
          <[fresh (dom h) := setSecondaries [] cand]> h).
Proof.
  intros Hclone Hrec Hc. unfold ParticleCollector_process.
  rewrite Hclone, Hrec, (Candidate_clone_flat _ _ _ Hc). reflexivity.
Qed.

Lemma live_tree_lookup (d : nat) (h : heap) (p : nat) :
  live_tree d h p = true -> is_Some (h !! p).
Proof.
  destruct d as [|d]; [discriminate|]. cbn [live_tree].
  destruct (h !! p) as [c|]; [eauto | discriminate].
Qed.

Lemma live_tree_weaken (d : nat) : forall (h h' : heap) (p : nat),
  h ⊆ h' -> live_tree d h p = true -> live_tree d h' p = true.
Proof.
  induction d as [|d IH]; intros h h' p Hsub; [discriminate|].
  cbn [live_tree]. destruct (h !! p) as [c|] eqn:Hp; [|discriminate].
  rewrite (lookup_weaken _ _ _ _ Hp Hsub).
  rewrite !forallb_forall. intros Hall s Hs.
  apply (IH h h' s Hsub). apply Hall, Hs.
Qed.

Lemma live_tree_S (d : nat) : forall (h : heap) (p : nat),
  live_tree d h p = true -> live_tree (S d) h p = true.
Proof.
  induction d as [|d IH]; intros h p; [discriminate|].
  intros Hlive. cbn [live_tree] in Hlive.
  change (match h !! p with
          | Some c => forallb (live_tree (S d) h) (secondaries c)
          | None => false
          end = true).
  destruct (h !! p) as [c|]; [|discriminate].
  rewrite forallb_forall in *. intros s Hs. apply IH, Hlive, Hs.
Qed.

Lemma live_tree_le (d d' : nat) (h : heap) (p : nat) :
  (d <= d')%nat -> live_tree d h p = true -> live_tree d' h p = true.
Proof.
  induction 1 as [|d' _ IH]; [trivial|].
  intros Hlive. apply live_tree_S, IH, Hlive.
Qed.

Lemma forallb_false {A} (f : A -> bool) (l : list A) :
  forallb f l = false -> exists x, In x l /\ f x = false.
Proof.
  induction l as [|a l IH]; [discriminate|]. cbn [forallb].
  destruct (f a) eqn:Ha.
  - intros Hl. destruct (IH Hl) as (x & Hx & Hfx).
    exists x. split; [right; exact Hx | exact Hfx].
  - intros _. exists a. split; [left; reflexivity | exact Ha].
Qed.

(** A candidate that is nested exactly [k] deep heads a chain of [k]
    different live candidates. *)
Lemma live_tree_chain (h : heap) (k : nat) : forall p : nat,
  live_tree k h p = true -> live_tree (pred k) h p = false ->
  exists l : list nat,
    length l = k /\ NoDup l
    /\ (forall x, x ∈ l -> x ∈ dom h)
    /\ (forall x, x ∈ l -> live_tree k h x = true).
Proof.
  induction k as [|k IH]; intros p Hlive Hnot; [discriminate|].
  cbn [pred] in Hnot.
  assert (p ∈ dom h) as Hp
    by (apply elem_of_dom; exact (live_tree_lookup _ _ _ Hlive)).
  destruct k as [|k].
  - exists [p]. split; [reflexivity|]. split; [apply NoDup_singleton|].
    split; intros x Hx; apply list_elem_of_singleton in Hx; subst x;
      assumption.
  - cbn [live_tree] in Hlive, Hnot.
    destruct (h !! p) as [c|] eqn:Hc; [|discriminate].
    destruct (forallb_false _ _ Hnot) as (s & Hs & Hsnot).
    rewrite forallb_forall in Hlive.
    destruct (IH s (Hlive s Hs) Hsnot) as (l & Hlen & Hdup & Hdom & Hall).
    exists (p :: l). split; [cbn [length]; rewrite Hlen; reflexivity|].
    split.
    { constructor; [|exact Hdup]. intros Hin.
      pose proof (Hall p Hin) as Hp'. cbn [live_tree] in Hp'.
      rewrite Hc in Hp'. congruence. }
    split; intros x Hx; apply elem_of_cons in Hx as [-> | Hx].
    + exact Hp.
    + apply Hdom, Hx.
    + cbn [live_tree]. rewrite Hc. apply forallb_forall. exact Hlive.
    + apply live_tree_S, Hall, Hx.
Qed.

(** A tree of live candidates is at most as deep as the heap has
    candidates: the fuel [Candidate_clone] starts with is enough. *)
Lemma live_tree_size (d : nat) (h : heap) (p : nat) :
  live_tree d h p = true -> live_tree (S (size h)) h p = true.
Proof.
  intros Hlive.
  assert (exists k, live_tree k h p = true /\ live_tree (pred k) h p = false)
    as (k & Hk & Hnot).
  { induction d as [|d IH]; [discriminate|].
    destruct (live_tree d h p) eqn:Hd.
    - apply IH. reflexivity.
    - exists (S d). split; [exact Hlive | exact Hd]. }
  destruct (live_tree_chain h k p Hk Hnot) as (l & Hlen & Hdup & Hdom & _).
  apply (live_tree_le k); [|exact Hk].
  rewrite <- Hlen, <- size_dom.
  rewrite <- (size_list_to_set (C := gset nat) l Hdup).
  apply Nat.le_le_succ_r. apply subseteq_size.
  intros x Hx. apply Hdom. apply elem_of_list_to_set in Hx. exact Hx.
Qed.

(** The recursive clone of a candidate whose secondaries are live and
    form a tree: a new candidate with the states of the original, whose
    secondaries are new candidates with the states of the original's
    secondaries, one for one and in order; what existed is as it was. *)
Lemma clone_from_live (fuel : nat) :
  forall (p : nat) (h : heap),
    live_tree fuel h p = true ->
    exists q h' c c',
      clone_from fuel true p h = Some (q, h')
      /\ h !! p = Some c
      /\ (q ∉ dom h)
      /\ h ⊆ h'
      /\ h' !! q = Some c'
      /\ copy_of c' c
      /\ Forall2 (fun s s' =>
                    (s' ∉ dom h)
                    /\ exists cs cs',
                        h !! s = Some cs /\ h' !! s' = Some cs'
                        /\ copy_of cs' cs)
                 (secondaries c) (secondaries c').
Proof.
  induction fuel as [|fuel IH]; intros p h Hlive; [discriminate|].
  cbn [live_tree] in Hlive. cbn [clone_from].
  destruct (h !! p) as [c|] eqn:Hp; [|discriminate].
  cbn [mbind option_bind].
  set (q := fresh (dom h)).
  assert (h !! q = None) as Hq by (apply not_elem_of_dom, is_fresh).
  set (h0 := <[q := setSecondaries [] c]> h).
  assert (h ⊆ h0) as Hh0 by (apply insert_subseteq; exact Hq).
  rewrite forallb_forall in Hlive.
  match goal with
  | |- context [?f (secondaries c) h0] => set (clone_all := f)
  end.
  assert (forall (l : list nat) (hh : heap),
            (forall s, In s l -> live_tree fuel h s = true) -> h0 ⊆ hh ->
            exists ss hh',
              clone_all l hh = Some (ss, hh') /\ hh ⊆ hh'
              /\ Forall2 (fun s s' =>
                            (s' ∉ dom hh)
                            /\ exists cs cs',
                                h !! s = Some cs /\ hh' !! s' = Some cs'
                                /\ copy_of cs' cs) l ss) as Hall.
  { induction l as [|s l IHl]; intros hh Hl Hsub.
    - exists [], hh. split; [reflexivity|]. split; [reflexivity|]. constructor.
    - assert (h ⊆ hh) as Hhh by (etrans; eassumption).
      destruct (IH s hh) as (s' & hh1 & cs & cs' & Hrun & Hs & Hs' & Hsub1
                              & Hcs' & Hcopy & _).
      { apply (live_tree_weaken fuel h hh s Hhh). apply Hl. left. reflexivity. }
      destruct (IHl hh1) as (ss & hh2 & Hrest & Hsub2 & Hss).
      { intros s0 Hs0. apply Hl. right. exact Hs0. }
      { etrans; eassumption. }
      exists (s' :: ss), hh2. split.
      { cbn. rewrite Hrun. cbn [mbind option_bind]. fold clone_all.
        rewrite Hrest. reflexivity. }
      split; [etrans; eassumption|].
      constructor.
      + split; [exact Hs'|]. exists cs, cs'. split; [|split].
        * destruct (live_tree_lookup fuel h s) as [cs0 Hcs0];
            [apply Hl; left; reflexivity|].
          rewrite Hcs0. f_equal.
          pose proof (lookup_weaken _ _ _ _ Hcs0 Hhh) as Hw. congruence.
        * exact (lookup_weaken _ _ _ _ Hcs' Hsub2).
        * exact Hcopy.
      + eapply Forall2_impl; [exact Hss|].
        intros x y (Hy & Hrel). split; [|exact Hrel].
        intros Hin. apply Hy. apply (subseteq_dom _ _ Hsub1). exact Hin. }
  destruct (Hall (secondaries c) h0) as (ss & h1 & Hrun & Hsub & Hss).
  { intros s Hs. apply Hlive. exact Hs. }
  { reflexivity. }
  rewrite Hrun. cbn [mbind option_bind].
  exists q, (<[q := setSecondaries ss c]> h1), c, (setSecondaries ss c).
  split; [reflexivity|]. split; [reflexivity|].
  split; [apply is_fresh|].
  split; [apply insert_subseteq_r; [exact Hq | etrans; eassumption]|].
  split; [apply lookup_insert_eq|]. split; [reflexivity|].
  cbn [secondaries setSecondaries].
  eapply Forall2_impl; [exact Hss|].
  intros s s' (Hs' & cs & cs' & Hcs & Hcs' & Hcopy).
  assert (q <> s') as Hne.
  { intros <-. apply Hs'. apply elem_of_dom. unfold h0.
    rewrite lookup_insert_eq. eauto. }
  split.
  - intros Hin. apply Hs'. apply (subseteq_dom _ _ Hh0). exact Hin.
  - exists cs, cs'. split; [exact Hcs|]. split; [|exact Hcopy].
    rewrite lookup_insert_ne by exact Hne. exact Hcs'.
Qed.

Lemma ParticleCollector_process_clones_tree (pc : ParticleCollector)
    (c : nat) (h : heap) (cand : Candidate) :
  clone pc = true -> recursive pc = true -> h !! c = Some cand ->
  forall d, live_tree d h c = true ->
  exists q h' cand',
    ParticleCollector_process pc c h = Some (push_back q pc, h')
    /\ (q ∉ dom h)
    /\ h ⊆ h'
    /\ h' !! q = Some cand'
    /\ copy_of cand' cand
    /\ Forall2 (fun s s' =>
                  (s' ∉ dom h)
                  /\ exists cs cs',
                      h !! s = Some cs /\ h' !! s' = Some cs'
                      /\ copy_of cs' cs)
               (secondaries cand) (secondaries cand').
Proof.
  intros Hclone Hrec Hc d Hlive.
  destruct (clone_from_live _ c h (live_tree_size d h c Hlive))
    as (q & h' & c0 & cand' & Hrun & Hc0 & Hq & Hsub & Hq' & Hcopy & Hss).
  assert (c0 = cand) as -> by congruence.
  exists q, h', cand'. unfold ParticleCollector_process, Candidate_clone.
  rewrite Hclone, Hrec, Hrun. cbn [mbind option_bind].
  repeat (split; [first [reflexivity | assumption]|]). exact Hss.
Qed.

(** C3, as amended. None of the three [process] functions reads the active
    flag. On an inactive candidate the collector appends one entry as it
    does for an active one: the handle itself, or in clone mode the handle
    of a new candidate, an inactive copy of the one handed in, without
    secondaries or, when [recursive] is set and the secondaries below the
    candidate are live candidates nested finitely deep, with new copies of
    its secondaries, one for one. The filter
    invokes [accept] or [reject] by membership of the id, and the filler
    fills the configured emission map with the source state; only a filler
    with no emission map does nothing. *)
Theorem process_on_inactive (pc : ParticleCollector)
    (accept reject : Module) (ids : gset Z)
    (fillMap : ParticleState -> EmissionMap -> EmissionMap)
    (f : EmissionMapFiller) (maps : gmap nat EmissionMap)
    (candidate : nat) (w : world) (c : Candidate) :
  cands w !! candidate = Some c ->
  active c = false ->
  (clone pc = false ->
     ParticleCollector_process pc candidate (cands w)
     = Some (push_back candidate pc, cands w))
  /\ (clone pc = true -> recursive pc = false ->
        ParticleCollector_process pc candidate (cands w)
        = Some (push_back (fresh (dom (cands w))) pc,
                <[fresh (dom (cands w)) := setSecondaries [] c]> (cands w)))
  /\ (clone pc = true -> recursive pc = true ->
        forall d, live_tree d (cands w) candidate = true ->
        exists q h' c',
          ParticleCollector_process pc candidate (cands w)
          = Some (push_back q pc, h')
          /\ (q ∉ dom (cands w))
          /\ cands w ⊆ h'
          /\ h' !! q = Some c'
          /\ copy_of c' c /\ active c' = false
          /\ Forall2 (fun s s' =>
                        (s' ∉ dom (cands w))
                        /\ exists cs cs',
                            cands w !! s = Some cs /\ h' !! s' = Some cs'
                            /\ copy_of cs' cs)
                     (secondaries c) (secondaries c'))
  /\ (forall pc' h',
        ParticleCollector_process pc candidate (cands w) = Some (pc', h') ->
        ParticleCollector_size pc' = S (ParticleCollector_size pc))
  /\ ParticleFilter_process accept reject ids candidate w
     = Some (if decide (id (current c) ∈ ids)
             then (Accept, accept candidate w)
             else (Reject, reject candidate w))
  /\ (forall e em,
        emissionMap f = Some e -> maps !! e = Some em ->
        EmissionMapFiller_process fillMap f candidate (cands w) maps
        = Some (<[e := fillMap (source c) em]> maps))
  /\ (emissionMap f = None ->
        EmissionMapFiller_process fillMap f candidate (cands w) maps
        = Some maps).
Proof.
  intros Hc Hinactive.
  split; [| split; [| split; [| split; [| split; [| split]]]]].
  - apply ParticleCollector_process_shares.
  - intros Hclone Hrec.
    apply (ParticleCollector_process_clones pc candidate (cands w) c Hclone Hrec Hc).
  - intros Hclone Hrec d Hlive.
    destruct (ParticleCollector_process_clones_tree pc candidate (cands w) c
                Hclone Hrec Hc d Hlive)
      as (q & h' & c' & Hrun & Hq & Hsub & Hq' & Hcopy & Hss).
    exists q, h', c'. repeat (split; [assumption|]).
    split; [|exact Hss].
    transitivity (active (setSecondaries [] c')); [reflexivity|].
    unfold copy_of in Hcopy. rewrite Hcopy. exact Hinactive.
  - intros pc' h'. unfold ParticleCollector_process.
    destruct (clone pc).
    + destruct (Candidate_clone (recursive pc) candidate (cands w))
        as [[q h1]|]; cbn [mbind option_bind]; [|discriminate].
      intros [= <- <-]. apply push_back_size.
    + intros [= <- <-]. apply push_back_size.
  - unfold ParticleFilter_process. rewrite Hc. cbn [mbind option_bind].
    destruct (decide (id (current c) ∈ ids)); reflexivity.
  - intros e em He Hem. unfold EmissionMapFiller_process.
    rewrite He, Hc, Hem. reflexivity.
  - intros He. unfold EmissionMapFiller_process. rewrite He. reflexivity.
Qed.

End CollectorProperties.

(** C3, as stated, fails. An inactive photon handed to a default-constructed
    collector is stored, and handed to a filter for photons it has [accept]
    invoked on it. *)
Lemma process_on_inactive_counterexample :
  active (candidate_of 22 false) = false
  /\ (exists pc',
        ParticleCollector_process
          ParticleCollector_0
          0 {[ 0%nat := candidate_of 22 false ]}
        = Some (pc', {[ 0%nat := candidate_of 22 false ]})
        /\ container pc' = [0%nat])
  /\ ParticleFilter_process (X := unit) idle deactivate {[ 22 ]} 0
       {| cands := {[ 0%nat := candidate_of 22 false ]}; ext := tt |}
     = Some (Accept, {| cands := {[ 0%nat := candidate_of 22 false ]};
                        ext := tt |}).
Proof.
  split; [reflexivity|]. split; [|reflexivity].
  eexists. split; reflexivity.
Qed.

Lemma process_on_inactive_witness :
  ParticleCollector_process
    ParticleCollector_0
    0 {[ 0%nat := candidate_of 22 false ]}
  = Some (push_back 0
            ParticleCollector_0,
          {[ 0%nat := candidate_of 22 false ]})
  /\ exists q h' c',
      ParticleCollector_process
        {| container := []; nBuffer := 10; clone := true; recursive := true |}
        0 finished_family
      = Some ({| container := [q]; nBuffer := 10; clone := true;
                 recursive := true |}, h')
      /\ (q ∉ dom finished_family)
      /\ h' !! q = Some c'
      /\ active c' = false
      /\ length (secondaries c') = 1%nat.
Proof.
  split.
  - refine (proj1 (process_on_inactive (X := unit) (EmissionMap := unit)
              ParticleCollector_0
              idle idle {[ 22 ]} (fun _ e => e) {| emissionMap := None |} ∅ 0
              {| cands := {[ 0%nat := candidate_of 22 false ]}; ext := tt |}
              (candidate_of 22 false) _ _) _); reflexivity.
  - destruct (process_on_inactive (X := unit) (EmissionMap := unit)
                {| container := []; nBuffer := 10; clone := true;
                   recursive := true |}
                idle idle {[ 22 ]} (fun _ e => e) {| emissionMap := None |} ∅ 0
                {| cands := finished_family; ext := tt |}
                (setSecondaries [1%nat] (candidate_of 1000260560 false)))
      as (_ & _ & Hclone & _); [reflexivity | reflexivity |].
    destruct (Hclone eq_refl eq_refl 2%nat eq_refl)
      as (q & h' & c' & Hrun & Hq & _ & Hq' & _ & Hact & Hss).
    exists q, h', c'. repeat (split; [assumption|]).
    symmetry. exact (Forall2_length _ _ _ Hss).
Defined.

(** ** getTrajectory *)

Section TrajectoryProperties.
Context {double Vector3d : Type} `{!Numerics double Vector3d}.
Context {X : Type}.

Local Abbreviation heap := (gmap nat (@Candidate double Vector3d)).
Local Abbreviation world := (@world double Vector3d X).
Local Abbreviation Module := (@Module double Vector3d X).
Local Abbreviation ModuleList := (@ModuleList double Vector3d X).

Lemma kept_dom (old : gset nat) (h h' : heap) :
  old ⊆ dom h -> (forall r, r ∈ old -> h' !! r = h !! r) -> old ⊆ dom h'.
Proof.
  intros Hsub Hsame r Hr. apply elem_of_dom. rewrite (Hsame r Hr).
  apply elem_of_dom. apply Hsub. exact Hr.
Qed.

Lemma keeps_id old : keeps old (fun w : world => w).
Proof. intros w _ Hsep. split; [reflexivity | exact Hsep]. Qed.

Lemma keeps_compose old (f g : world -> world) :
  keeps old f -> keeps old g -> keeps old (fun w : world => g (f w)).
Proof.
  intros Hf Hg w Hdom Hsep.
  destruct (Hf w Hdom Hsep) as [Hf1 Hf2].
  destruct (Hg (f w) (kept_dom old _ _ Hdom Hf1) Hf2) as [Hg1 Hg2].
  split; [|exact Hg2]. intros r Hr. rewrite Hg1, Hf1; auto.
Qed.

Lemma keeps_fold {A} old (step : A -> world -> world) (l : list A) :
  (forall a, a ∈ l -> keeps old (step a)) ->
  keeps old (fun w : world => fold_left (fun w a => step a w) l w).
Proof.
  induction l as [|a l IH]; intros Hl.
  - apply keeps_id.
  - cbn [fold_left].
    apply (keeps_compose old (step a)
             (fun w : world => fold_left (fun w a => step a w) l w)).
    + apply Hl. left.
    + apply IH. intros a' Ha'. apply Hl. right. exact Ha'.
Qed.

Lemma ModuleList_process_keeps old (ml : ModuleList) (p : nat) :
  Forall local_module (modules ml) -> p ∉ old ->
  keeps old (ModuleList_process ml p).
Proof.
  intros Hloc Hp. unfold ModuleList_process.
  apply (keeps_fold old (fun (m : Module) w => m p w)).
  intros m Hm w Hdom Hsep. rewrite Forall_forall in Hloc.
  apply (Hloc m Hm old p w Hdom Hp Hsep).
Qed.

Lemma run_steps_keeps old (ml : ModuleList) (p : nat) (budget : nat) :
  Forall local_module (modules ml) -> p ∉ old ->
  keeps old (run_steps budget ml p).
Proof.
  intros Hloc Hp. induction budget as [|budget IH]; intros w Hdom Hsep.
  - split; [reflexivity | exact Hsep].
  - cbn [run_steps]. destruct (isActive p w).
    + destruct (ModuleList_process_keeps old ml p Hloc Hp w Hdom Hsep)
        as [H1 H2].
      destruct (IH _ (kept_dom old _ _ Hdom H1) H2) as [H3 H4].
      split; [|exact H4].
      intros r Hr. rewrite H3, H1; auto.
    + split; [reflexivity | exact Hsep].
Qed.

Lemma ModuleList_run_keeps old (ml : ModuleList) (budget depth : nat) :
  Forall local_module (modules ml) ->
  forall p, p ∉ old -> keeps old (ModuleList_run depth budget ml p).
Proof.
  intros Hloc. induction depth as [|depth IH]; intros p Hp w Hdom Hsep.
  - cbn [ModuleList_run].
    apply (run_steps_keeps old ml p budget Hloc Hp w Hdom Hsep).
  - cbn [ModuleList_run].
    destruct (run_steps_keeps old ml p budget Hloc Hp w Hdom Hsep) as [H1 H2].
    destruct (cands (run_steps budget ml p w) !! p) as [cand|] eqn:Hcand;
      [| split; [exact H1 | exact H2]].
    assert (keeps old (fun w' : world => fold_left
              (fun w' s => ModuleList_run depth budget ml s w')
              (secondaries cand) w')) as Hfold.
    { apply (keeps_fold old (fun s w' => ModuleList_run depth budget ml s w')).
      intros s Hs. apply IH. exact (H2 p cand Hcand Hp s Hs). }
    destruct (Hfold _ (kept_dom old _ _ Hdom H1) H2) as [H3 H4].
    split; [|exact H4].
    intros r Hr. rewrite H3, H1; auto.
Qed.

Lemma remove_added (output : Module) (mlist : ModuleList) :
  ModuleList_remove (ModuleList_size (ModuleList_add output mlist) - 1)
    (ModuleList_add output mlist) = mlist.
Proof.
  destruct mlist as [ms]. unfold ModuleList_remove, ModuleList_size,
    ModuleList_add. cbn [modules]. f_equal.
  rewrite length_app. cbn [length].
  replace (length ms + 1 - 1)%nat with (length ms) by lia.
  rewrite delete_middle. apply app_nil_r.
Qed.


End TrajectoryProperties.

Lemma idle_local {double Vector3d X : Type} :
  local_module (@idle double Vector3d X).
Proof. intros old p w _ Hp Hsep. split; [reflexivity | exact Hsep]. Qed.

Lemma deactivate_local {double Vector3d X : Type} :
  local_module (@deactivate double Vector3d X).
Proof.
  intros old p w _ Hp Hsep. unfold deactivate. cbn [cands with_cands]. split.
  - intros r Hr. apply lookup_alter_ne. intros Heq. subst r. exact (Hp Hr).
  - intros r c Hr Hnot s Hs.
    destruct (decide (p = r)) as [<- | Hne].
    + rewrite lookup_alter_eq in Hr.
      destruct (cands w !! p) as [c0|] eqn:Hc0; [|discriminate].
      injection Hr as <-. exact (Hsep p c0 Hc0 Hnot s Hs).
    + rewrite lookup_alter_ne in Hr by assumption.
      exact (Hsep r c Hr Hnot s Hs).
Qed.

(** A branching module is local: the candidate it makes is new, so it is
    none of the candidates a frame of existing ones holds. *)
Lemma branch_local {double Vector3d X : Type} :
  local_module (@branch double Vector3d X).
Proof.
  intros old p w Hdom Hp Hsep. unfold branch.
  destruct (cands w !! p) as [c|] eqn:Hc; [| split; [reflexivity | exact Hsep]].
  cbn [cands with_cands].
  set (q := fresh (dom (cands w))).
  assert (q ∉ old) as Hq.
  { intros Hin. apply (is_fresh (dom (cands w))). apply Hdom. exact Hin. }
  split.
  - intros r Hr.
    rewrite !lookup_insert_ne by (intros <-; contradiction). reflexivity.
  - intros r cr Hr Hnot s Hs.
    destruct (decide (p = r)) as [<- | Hne].
    + rewrite lookup_insert_eq in Hr. injection Hr as <-.
      cbn [secondaries setSecondaries] in Hs.
      apply elem_of_app in Hs as [Hs | Hs].
      * exact (Hsep p c Hc Hnot s Hs).
      * apply list_elem_of_singleton in Hs. subst s. exact Hq.
    + rewrite lookup_insert_ne in Hr by exact Hne.
      destruct (decide (q = r)) as [<- | Hne'].
      * rewrite lookup_insert_eq in Hr. injection Hr as <-.
        cbn [secondaries setSecondaries] in Hs. inversion Hs.
      * rewrite lookup_insert_ne in Hr by exact Hne'.
        exact (Hsep r cr Hr Hnot s Hs).
Qed.


(** The run behind it: the pipeline branches below the restarted copy, at
    handle 1, and four candidates are made, while the stored candidate, at
    handle 0, is as it was. *)
Example getTrajectory_branching_run :
  exists w3 t,
    getTrajectory (Numerics0 := integer_numerics) 2 5 sample_collector
        branching_chain 0 idle sample_world
      = Some (branching_chain, w3, t)
    /\ size (cands w3) = 5%nat
    /\ secondaries <$> cands w3 !! 1%nat = Some [2%nat]
    /\ cands w3 !! 0%nat = Some (candidate_of 22 false).
Proof.
  eexists. eexists. split; [vm_compute; reflexivity|].
  vm_compute. repeat split.
Qed.

(** ** PerformanceModule *)

Section PerformanceProperties.
Context {double Vector3d : Type} `{!Numerics double Vector3d}.
Context {X : Type}.

Local Abbreviation world := (@world double Vector3d X).
Local Abbreviation Module := (@Module double Vector3d X).
Local Abbreviation PerformanceModule := (@PerformanceModule double Vector3d X).
Local Abbreviation _module_info := (@_module_info double Vector3d X).

Variable getMillisecond : world -> double.

Lemma measure_length (ms : list _module_info) (c : nat) (w : world) :
  length (fst (measure getMillisecond ms c w)) = length ms.
Proof.
  revert w. induction ms as [|m ms IH]; intros w; [reflexivity|].
  cbn [measure]. specialize (IH (module m c w)).
  destruct (measure getMillisecond ms c (module m c w)) as [times w2].
  cbn [fst length] in *. rewrite IH. reflexivity.
Qed.

Lemma process_unfold (pm : PerformanceModule) (c : nat) (w : world) :
  PerformanceModule_process getMillisecond pm c w
  = (merge (measured getMillisecond pm c w) pm,
     snd (measure getMillisecond (perf_modules pm) c w)).
Proof.
  unfold PerformanceModule_process, measured.
  destruct (measure getMillisecond (perf_modules pm) c w). reflexivity.
Qed.

Lemma merge_modules (times : list double) (pm : PerformanceModule) :
  length times = length (perf_modules pm) ->
  map module (perf_modules (merge times pm)) = map module (perf_modules pm).
Proof.
  unfold merge. cbn [perf_modules]. generalize (perf_modules pm) as ms.
  intros ms. revert times.
  induction ms as [|m ms IH]; intros [|t times] Hlen; try discriminate;
    [reflexivity|].
  cbn [zip_with map module]. rewrite IH by (simpl in Hlen; lia). reflexivity.
Qed.

Lemma merge_lookup (times : list double) (pm : PerformanceModule) i m t :
  perf_modules pm !! i = Some m -> times !! i = Some t ->
  perf_modules (merge times pm) !! i
  = Some {| time := d_add (time m) t; module := module m |}.
Proof.
  intros Hm Ht. unfold merge. cbn [perf_modules].
  rewrite lookup_zip_with, Hm. cbn [mbind option_bind]. rewrite Ht.
  reflexivity.
Qed.

Lemma column_cons i (times : list double) log t :
  times !! i = Some t -> column i (times :: log) = t :: column i log.
Proof. intros Ht. unfold column. cbn [omap list_omap]. rewrite Ht. reflexivity. Qed.

Lemma process_all_accounting (cs : list nat) :
  forall (pm : PerformanceModule) (w : world),
    0 <= calls pm -> calls pm + Z.of_nat (length cs) < 2 ^ 64 ->
    let r := process_all getMillisecond pm cs w in
    calls (fst (fst r)) = calls pm + Z.of_nat (length cs)
    /\ map module (perf_modules (fst (fst r))) = map module (perf_modules pm)
    /\ (forall i m, perf_modules pm !! i = Some m ->
          exists m', perf_modules (fst (fst r)) !! i = Some m'
                     /\ time m' = d_sum (time m) (column i (snd r))
                     /\ length (column i (snd r)) = length cs).
Proof.
  induction cs as [|c cs IH]; intros pm w Hc Hlt.
  - cbn. split; [lia|]. split; [reflexivity|].
    intros i m Hm. exists m. repeat split. exact Hm.
  - cbn [process_all]. rewrite process_unfold.
    set (times := measured getMillisecond pm c w).
    assert (length times = length (perf_modules pm)) as Hlen
      by apply measure_length.
    set (pm1 := merge times pm).
    set (w1 := snd (measure getMillisecond (perf_modules pm) c w)).
    cbn [length] in Hlt.
    assert (calls pm1 = calls pm + 1) as Hcalls
      by (unfold pm1, merge; cbn [calls]; apply size_t_small; lia).
    specialize (IH pm1 w1 ltac:(lia) ltac:(lia)).
    destruct (process_all getMillisecond pm1 cs w1) as [[pm2 w2] log].
    cbn [fst snd] in *. destruct IH as (IHc & IHm & IHt).
    split; [cbn [length]; lia|]. split.
    { rewrite IHm. apply merge_modules. exact Hlen. }
    intros i m Hm.
    destruct (lookup_lt_is_Some_2 times i) as [t Ht].
    { rewrite Hlen. eapply lookup_lt_Some. exact Hm. }
    destruct (IHt i _ (merge_lookup times pm i m t Hm Ht))
      as (m' & Hm' & Htime & Hcol).
    exists m'. split; [exact Hm'|].
    rewrite (column_cons i times log t Ht). cbn [length time] in *.
    split; [exact Htime | rewrite Hcol; reflexivity].
Qed.

Lemma PerformanceModule_of_modules (ms : list Module) :
  perf_modules (PerformanceModule_of ms)
  = map (fun m => {| time := d_zero; module := m |}) ms
  /\ calls (PerformanceModule_of ms) = 0.
Proof.
  unfold PerformanceModule_of.
  assert (forall (pm : PerformanceModule),
            perf_modules (fold_left (fun pm m => PerformanceModule_add m pm) ms pm)
            = perf_modules pm ++ map (fun m => {| time := d_zero; module := m |}) ms
            /\ calls (fold_left (fun pm m => PerformanceModule_add m pm) ms pm)
               = calls pm) as Hgen.
  { induction ms as [|m ms IH]; intros pm.
    - cbn. rewrite app_nil_r. split; reflexivity.
    - cbn [fold_left map]. destruct (IH (PerformanceModule_add m pm)) as [H1 H2].
      rewrite H1, H2. unfold PerformanceModule_add. cbn [perf_modules calls].
      rewrite <- app_assoc. split; reflexivity. }
  apply (Hgen PerformanceModule_new).
Qed.

Lemma teardown_total_sum (pm : PerformanceModule) :
  teardown_total pm = d_sum d_zero (map time (perf_modules pm)).
Proof.
  unfold teardown_total, d_sum. generalize d_zero as acc.
  induction (perf_modules pm) as [|m ms IH]; intros acc; [reflexivity|].
  cbn [fold_left map]. apply IH.
Qed.

(** C8. After a sequence of [process] calls on a wrapper built by [add]
    from a new one, the invocation counter equals the number of calls, the
    wrapped modules are the ones added, every wrapped module was measured
    once per call and its accumulated time is the sum, taken by the
    machine addition in call order, of the durations measured for it, and
    the total of the teardown report is the machine sum of the accumulated
    times. *)
Theorem PerformanceModule_accounting (ms : list Module) (cs : list nat)
    (w : world) :
  Z.of_nat (length cs) < 2 ^ 64 ->
  let r := process_all getMillisecond (PerformanceModule_of ms) cs w in
  let pm := fst (fst r) in
  let log := snd r in
  calls pm = Z.of_nat (length cs)
  /\ map module (perf_modules pm) = ms
  /\ length (perf_modules pm) = length ms
  /\ (forall i m, perf_modules pm !! i = Some m ->
        time m = d_sum d_zero (column i log)
        /\ length (column i log) = length cs)
  /\ teardown_total pm = d_sum d_zero (map time (perf_modules pm)).
Proof.
  intros Hlt r pm log.
  destruct (PerformanceModule_of_modules ms) as [Hms Hcalls].
  destruct (process_all_accounting cs (PerformanceModule_of ms) w)
    as (Hc & Hm & Ht); [rewrite Hcalls; lia | rewrite Hcalls; lia |].
  rewrite Hcalls in Hc.
  fold r in Hc, Hm, Ht. fold pm in Hc, Hm, Ht. fold log in Ht.
  assert (map module (perf_modules pm) = ms) as Hmods.
  { rewrite Hm, Hms, map_map. cbn [module]. apply map_id. }
  assert (length (perf_modules pm) = length ms) as Hl
    by (rewrite <- Hmods, length_map; reflexivity).
  split; [lia|]. split; [exact Hmods|]. split; [exact Hl|].
  split; [| apply teardown_total_sum].
  intros i m Hi.
  destruct (lookup_lt_is_Some_2 (perf_modules (PerformanceModule_of ms)) i)
    as [m0 Hm0].
  { rewrite Hms, length_map, <- Hl. eapply lookup_lt_Some. exact Hi. }
  destruct (Ht i m0 Hm0) as (m' & Hm' & Htime & Hcol).
  assert (m' = m) as -> by congruence.
  assert (time m0 = d_zero) as Hzero.
  { rewrite Hms in Hm0. rewrite list_lookup_fmap in Hm0.
    destruct (ms !! i); [|discriminate]. injection Hm0 as <-. reflexivity. }
  rewrite Htime, Hzero. split; [reflexivity | exact Hcol].
Qed.

End PerformanceProperties.

Lemma PerformanceModule_accounting_witness :
  let r := process_all (Numerics0 := integer_numerics) clock_ms
             (PerformanceModule_of [busy 3; busy 4]) [0%nat; 0%nat; 0%nat]
             {| cands := (∅ : gmap nat (@Candidate Z Z)); ext := 100 |} in
  let pm := fst (fst r) in
  let log := snd r in
  calls pm = Z.of_nat (length [0%nat; 0%nat; 0%nat])
  /\ map module (perf_modules pm) = [busy 3; busy 4]
  /\ length (perf_modules pm) = length [busy 3; busy 4]
  /\ (forall i m, perf_modules pm !! i = Some m ->
        time m = d_sum (Numerics0 := integer_numerics) 0 (column i log)
        /\ length (column i log) = length [0%nat; 0%nat; 0%nat])
  /\ teardown_total (Numerics0 := integer_numerics) pm
     = d_sum (Numerics0 := integer_numerics) 0 (map time (perf_modules pm)).
Proof.
  refine (PerformanceModule_accounting (Numerics0 := integer_numerics)
            clock_ms [busy 3; busy 4] [0%nat; 0%nat; 0%nat]
            {| cands := (∅ : gmap nat (@Candidate Z Z)); ext := 100 |} _).
  simpl. lia.
Defined.

(** The model run on that input: three calls, 3 ms and 4 ms per call. *)
Example PerformanceModule_run :
  let r := process_all (Numerics0 := integer_numerics) clock_ms
             (PerformanceModule_of [busy 3; busy 4]) [0%nat; 0%nat; 0%nat]
             {| cands := (∅ : gmap nat (@Candidate Z Z)); ext := 100 |} in
  calls (fst (fst r)) = 3
  /\ map time (perf_modules (fst (fst r))) = [9; 12]
  /\ snd r = [[3; 4]; [3; 4]; [3; 4]]
  /\ teardown_total (Numerics0 := integer_numerics) (fst (fst r)) = 21.
Proof. vm_compute. repeat split. Qed.

(** ** Programs over handles *)

Lemma holds_range p h : 0 <= holds p h <= 1.
Proof. unfold holds. case_decide; lia. Qed.

Lemma holds_ptr p h : holds p {| _ptr := _ptr h |} = holds p h.
Proof. reflexivity. Qed.

Lemma holds_null p : holds p {| _ptr := None |} = 0.
Proof. reflexivity. Qed.

Lemma holders_app p hs hs' :
  holders p (hs ++ hs') = holders p hs + holders p hs'.
Proof. induction hs as [|h hs IH]; simpl; [reflexivity | rewrite IH; lia]. Qed.

Lemma holders_bounds p hs : 0 <= holders p hs <= Z.of_nat (length hs).
Proof.
  induction hs as [|h hs IH]; cbn [holders length]; [lia|].
  pose proof (holds_range p h). lia.
Qed.

Lemma holders_insert p hs : forall i h h',
  hs !! i = Some h ->
  holders p (<[i := h']> hs) = holders p hs - holds p h + holds p h'.
Proof.
  induction hs as [|h0 hs IH]; intros [|i] h h' Hi; try discriminate.
  - injection Hi as ->. simpl. lia.
  - simpl in *. rewrite (IH i h h' Hi). lia.
Qed.

Lemma holders_lookup p hs : forall i h,
  hs !! i = Some h -> holds p h <= holders p hs.
Proof.
  induction hs as [|h0 hs IH]; intros [|i] h Hi; try discriminate.
  - injection Hi as ->. simpl. pose proof (holders_bounds p hs). lia.
  - simpl in *. pose proof (IH i h Hi). pose proof (holds_range p h0). lia.
Qed.

Lemma owned_by_ext cnt cnt' objs :
  (forall p, cnt p = cnt' p) -> owned_by cnt objs -> owned_by cnt' objs.
Proof.
  intros Hext Hown p. specialize (Hown p). rewrite <- Hext.
  destruct (objs !! p); exact Hown.
Qed.

Lemma owned_by_live cnt objs p :
  owned_by cnt objs -> 0 < cnt p ->
  exists o, objs !! p = Some o /\ _referenceCount o = cnt p.
Proof.
  intros Hown Hpos. specialize (Hown p).
  destruct (objs !! p) as [o|]; [| lia].
  exists o. split; [reflexivity | apply Hown].
Qed.

(** [if (p) p->addReference()] on a held object, in any build. *)
Lemma addReference_if_owned b cnt p m :
  owned_by cnt (objects m) ->
  (forall a, p = Some a -> 0 < cnt a < 2 ^ 64 - 1) ->
  exists m',
    addReference_if b p m = Some m'
    /\ owned_by (fun q => cnt q + holds q {| _ptr := p |}) (objects m').
Proof.
  intros Hown Hlive. destruct p as [a|].
  - destruct (Hlive a eq_refl) as [Hpos Hlt].
    destruct (owned_by_live cnt _ a Hown Hpos) as (o & Ho & Hcnt).
    rewrite (addReference_if_live b a m o Ho). eexists. split; [reflexivity|].
    cbn [objects addReference snd]. rewrite size_t_small by lia.
    intros q. unfold holds. cbn [_ptr].
    destruct (decide (a = q)) as [<- | Hne].
    + rewrite lookup_insert_eq. rewrite decide_True by reflexivity.
      cbn [_referenceCount]. lia.
    + rewrite lookup_insert_ne by assumption.
      rewrite decide_False by congruence. specialize (Hown q).
      rewrite Z.add_0_r. exact Hown.
  - exists m. split; [reflexivity|].
    apply (owned_by_ext cnt); [|exact Hown].
    intros q. rewrite holds_null. lia.
Qed.

(** [if (p) p->removeReference()] on a held object, with
    [__sync_sub_and_fetch]: the object goes exactly when its last holder
    does. *)
Lemma removeReference_if_owned cnt p m :
  owned_by cnt (objects m) ->
  (forall a, p = Some a -> 0 < cnt a < 2 ^ 32) ->
  exists m',
    removeReference_if GNUC p m = Some m'
    /\ owned_by (fun q => cnt q - holds q {| _ptr := p |}) (objects m').
Proof.
  intros Hown Hlive. destruct p as [a|].
  - destruct (Hlive a eq_refl) as [Hpos Hlt].
    destruct (owned_by_live cnt _ a Hown Hpos) as (o & Ho & Hcnt).
    rewrite (removeReference_if_live GNUC a m o Ho).
    eexists. split; [reflexivity|].
    unfold removeReference, capture. cbn [snd fst].
    rewrite size_t_small by lia. rewrite int_eqb_zero by lia.
    destruct (Z.eqb_spec (_referenceCount o - 1) 0) as [Hz | Hnz];
      cbn [objects]; intros q; unfold holds; cbn [_ptr];
      (destruct (decide (a = q)) as [<- | Hne];
       [ rewrite decide_True by reflexivity
       | rewrite decide_False by congruence ]).
    + rewrite lookup_delete_eq. lia.
    + rewrite lookup_delete_ne by assumption. specialize (Hown q).
      rewrite Z.sub_0_r. exact Hown.
    + rewrite lookup_insert_eq. cbn [_referenceCount]. lia.
    + rewrite lookup_insert_ne by assumption. specialize (Hown q).
      rewrite Z.sub_0_r. exact Hown.
  - exists m. split; [reflexivity|].
    apply (owned_by_ext cnt); [|exact Hown].
    intros q. rewrite holds_null. lia.
Qed.

Lemma held_positive p hs i h :
  hs !! i = Some h -> _ptr h = Some p -> 0 < holders p hs.
Proof.
  intros Hi Hp. pose proof (holders_lookup p hs i h Hi) as Hle.
  unfold holds in Hle. rewrite decide_True in Hle by exact Hp. lia.
Qed.

(** The body shared by [assign] and [operator =(T* ptr)], when the
    pointers differ. *)
Lemma assign_owned hs m i hi new :
  owned hs m -> Z.of_nat (length hs) < 2 ^ 32 ->
  hs !! i = Some hi ->
  (forall a, new = Some a -> 0 < holders a hs) ->
  exists m',
    ref_ptr_assign_ptr GNUC hi new m = Some ({| _ptr := new |}, m')
    /\ owned (<[i := {| _ptr := new |}]> hs) m'.
Proof.
  intros Hown Hlen Hi Hnew. unfold ref_ptr_assign_ptr.
  destruct (decide (_ptr hi = new)) as [Heq | Hne].
  - exists m. destruct hi as [pi]. cbn [_ptr] in Heq. subst new.
    split; [reflexivity|]. rewrite list_insert_id by exact Hi. exact Hown.
  - cbn [_ptr].
    destruct (addReference_if_owned GNUC (fun p => holders p hs) new m Hown)
      as (m1 & Hadd & Hown1).
    { intros a Ha. pose proof (holders_bounds a hs). specialize (Hnew a Ha). lia. }
    rewrite Hadd. cbn [mbind option_bind].
    destruct (removeReference_if_owned _ (_ptr hi) m1 Hown1)
      as (m2 & Hrm & Hown2).
    { intros a Ha. pose proof (holders_bounds a hs).
      pose proof (held_positive a hs i hi Hi Ha).
      unfold holds. cbn [_ptr]. rewrite decide_False by congruence. lia. }
    rewrite Hrm. cbn [mbind option_bind]. exists m2. split; [reflexivity|].
    unfold owned. refine (owned_by_ext _ _ _ _ Hown2).
    intros p. cbn beta. rewrite (holders_insert p hs i hi _ Hi), holds_ptr. lia.
Qed.

Lemma handle_step_owned op hs m :
  owned hs m ->
  Z.of_nat (length hs) < 2 ^ 32 - 1 ->
  well_indexed (length hs) [op] = true ->
  exists hs' m',
    handle_step GNUC op (hs, m) = Some (hs', m')
    /\ owned hs' m'
    /\ length hs' = match op with
                    | Copy _ => S (length hs)
                    | _ => length hs
                    end.
Proof.
  intros Hown Hlen Hwf. cbn [well_indexed] in Hwf.
  destruct op as [i | i | i j | i | i j]; cbn [handle_step].
  - apply andb_prop in Hwf as [Hi _]. apply Nat.ltb_lt in Hi.
    destruct (lookup_lt_is_Some_2 hs i Hi) as [h Hh]. rewrite Hh.
    cbn [mbind option_bind]. unfold ref_ptr_copy.
    destruct (addReference_if_owned GNUC (fun p => holders p hs) (_ptr h) m Hown)
      as (m1 & Hadd & Hown1).
    { intros a Ha. pose proof (holders_bounds a hs).
      pose proof (held_positive a hs i h Hh Ha). lia. }
    rewrite Hadd. cbn [mbind option_bind]. eexists. eexists.
    split; [reflexivity|]. split; [| rewrite length_app; simpl; lia].
    unfold owned. refine (owned_by_ext _ _ _ _ Hown1).
    intros p. cbn beta. rewrite holders_app. simpl. lia.
  - apply andb_prop in Hwf as [Hi _]. apply Nat.ltb_lt in Hi.
    destruct (lookup_lt_is_Some_2 hs i Hi) as [h Hh]. rewrite Hh.
    cbn [mbind option_bind]. unfold ref_ptr_destroy.
    destruct (removeReference_if_owned (fun p => holders p hs) (_ptr h) m Hown)
      as (m1 & Hrm & Hown1).
    { intros a Ha. pose proof (holders_bounds a hs).
      pose proof (held_positive a hs i h Hh Ha). lia. }
    rewrite Hrm. cbn [mbind option_bind]. eexists. eexists.
    split; [reflexivity|]. split; [| apply length_insert].
    unfold owned. refine (owned_by_ext _ _ _ _ Hown1).
    intros p. cbn beta. rewrite (holders_insert p hs i h _ Hh), holds_ptr, holds_null. lia.
  - apply andb_prop in Hwf as [Hij _]. apply andb_prop in Hij as [Hi Hj].
    apply Nat.ltb_lt in Hi. apply Nat.ltb_lt in Hj.
    destruct (lookup_lt_is_Some_2 hs i Hi) as [hi Hhi].
    destruct (lookup_lt_is_Some_2 hs j Hj) as [hj Hhj].
    rewrite Hhi, Hhj. cbn [mbind option_bind]. rewrite assign_bodies_agree.
    destruct (assign_owned hs m i hi (_ptr hj) Hown ltac:(lia) Hhi)
      as (m' & Hassign & Hown').
    { intros a Ha. exact (held_positive a hs j hj Hhj Ha). }
    rewrite Hassign. cbn [mbind option_bind]. eexists. eexists.
    split; [reflexivity|]. split; [exact Hown' | apply length_insert].
  - apply andb_prop in Hwf as [Hi _]. apply Nat.ltb_lt in Hi.
    destruct (lookup_lt_is_Some_2 hs i Hi) as [hi Hhi].
    rewrite Hhi. cbn [mbind option_bind].
    destruct (assign_owned hs m i hi None Hown ltac:(lia) Hhi)
      as (m' & Hassign & Hown'); [discriminate|].
    rewrite Hassign. cbn [mbind option_bind]. eexists. eexists.
    split; [reflexivity|]. split; [exact Hown' | apply length_insert].
  - apply andb_prop in Hwf as [Hij _]. apply andb_prop in Hij as [Hi Hj].
    apply Nat.ltb_lt in Hi. apply Nat.ltb_lt in Hj.
    destruct (lookup_lt_is_Some_2 hs i Hi) as [hi Hhi].
    destruct (lookup_lt_is_Some_2 hs j Hj) as [hj Hhj].
    rewrite Hhi, Hhj. cbn [mbind option_bind ref_ptr_swap].
    eexists. eexists. split; [reflexivity|].
    split; [| rewrite !length_insert; reflexivity].
    unfold owned. refine (owned_by_ext _ _ _ _ Hown). intros p. cbn beta.
    destruct (decide (i = j)) as [<- | Hne].
    + rewrite list_insert_insert_eq.
      rewrite (holders_insert p hs i hi _ Hhi), holds_ptr. lia.
    + assert (<[i := {| _ptr := _ptr hj |}]> hs !! j = Some hj) as Hj'
        by (rewrite list_lookup_insert_ne by assumption; exact Hhj).
      rewrite (holders_insert p _ j hj _ Hj').
      rewrite (holders_insert p hs i hi _ Hhi), !holds_ptr. lia.
Qed.

Lemma well_indexed_cons n op ops :
  well_indexed n (op :: ops) = true ->
  well_indexed n [op] = true
  /\ well_indexed (match op with Copy _ => S n | _ => n end) ops = true.
Proof.
  destruct op; cbn [well_indexed]; intros H;
    repeat (apply andb_prop in H as [H ?]);
    repeat (apply andb_prop in H as [? H]);
    split; try assumption; repeat (apply andb_true_intro; split); auto.
Qed.

(** With [__sync_add_and_fetch] and [__sync_sub_and_fetch], a program that
    copies, destroys, assigns, resets and swaps handles keeps the ownership
    invariant: started where the live objects are exactly the held ones
    and every count is the number of holders, it never calls into a
    deleted object, and it ends in such a state again. So no object is
    deleted while a handle holds it, and none outlives its last handle. *)
Theorem handle_run_owned (ops : list handle_op) :
  forall (hs : list ref_ptr) (m : memory),
    owned hs m ->
    Z.of_nat (length hs) + Z.of_nat (length ops) < 2 ^ 32 ->
    well_indexed (length hs) ops = true ->
    exists hs' m',
      handle_run GNUC ops (hs, m) = Some (hs', m') /\ owned hs' m'.
Proof.
  induction ops as [|op ops IH]; intros hs m Hown Hlen Hwf.
  - exists hs, m. split; [reflexivity | exact Hown].
  - apply well_indexed_cons in Hwf as [Hop Hops]. cbn [length] in Hlen.
    destruct (handle_step_owned op hs m Hown ltac:(lia) Hop)
      as (hs1 & m1 & Hstep & Hown1 & Hlen1).
    cbn [handle_run]. rewrite Hstep. cbn [mbind option_bind].
    apply IH; [exact Hown1 | destruct op; lia |].
    rewrite Hlen1. destruct op; exact Hops.
Qed.

Lemma owned_single p :
  owned [{| _ptr := Some p |}]
        {| objects := {[ p := {| _referenceCount := 1 |} ]}; events := [] |}.
Proof.
  intros q. cbn [objects holders]. unfold holds. cbn [_ptr].
  destruct (decide (p = q)) as [<- | Hne].
  - rewrite lookup_singleton_eq, decide_True by reflexivity.
    cbn [_referenceCount]. lia.
  - rewrite lookup_singleton_ne by assumption.
    rewrite decide_False by congruence. lia.
Qed.

Lemma handle_run_owned_witness :
  exists hs' m',
    handle_run GNUC [Copy 0; Copy 1; Reset 0; Swap 0 2; Assign 1 2; Destroy 0]
      ([{| _ptr := Some 7%nat |}],
       {| objects := {[ 7%nat := {| _referenceCount := 1 |} ]}; events := [] |})
    = Some (hs', m')
    /\ owned hs' m'.
Proof.
  refine (handle_run_owned
            [Copy 0; Copy 1; Reset 0; Swap 0 2; Assign 1 2; Destroy 0]
            [{| _ptr := Some 7%nat |}]
            {| objects := {[ 7%nat := {| _referenceCount := 1 |} ]};
               events := [] |} _ _ _).
  - apply owned_single.
  - simpl. lia.
  - reflexivity.
Defined.

(** That program, run: the object is deleted by the last of the calls, when
    the last handle that holds it is destroyed. *)
Example handle_run_example :
  handle_run GNUC [Copy 0; Copy 1; Reset 0; Swap 0 2; Assign 1 2; Destroy 0]
    ([{| _ptr := Some 7%nat |}],
     {| objects := {[ 7%nat := {| _referenceCount := 1 |} ]}; events := [] |})
  = Some ([{| _ptr := None |}; {| _ptr := None |}; {| _ptr := None |}],
          {| objects := ∅;
             events := [EvAddReference 7; EvAddReference 7;
                        EvRemoveReference 7; EvRemoveReference 7;
                        EvRemoveReference 7; EvDelete 7] |}).
Proof. vm_compute. reflexivity. Qed.

(** [release] hands the pointer out and takes the handle's reference back
    without ever deleting, also when that was the last reference; wrapping
    the pointer in a handle again restores the count. No
    [removeReference] call is made. *)
Theorem release_then_wrap (b : build) (p : nat) (m : memory) (n : Z) :
  objects m !! p = Some {| _referenceCount := n |} ->
  1 <= n < 2 ^ 64 ->
  exists m1 m2,
    ref_ptr_release {| _ptr := Some p |} m
      = Some (Some p, {| _ptr := None |}, m1)
    /\ objects m1 = <[p := {| _referenceCount := n - 1 |}]> (objects m)
    /\ events m1 = events m
    /\ ref_ptr_from b (Some p) m1 = Some ({| _ptr := Some p |}, m2)
    /\ objects m2 = objects m
    /\ events m2 = events m ++ [EvAddReference p].
Proof.
  intros Hp Hn. unfold ref_ptr_release. cbn [_ptr]. rewrite Hp.
  cbn [mbind option_bind removeReferenceNoDelete snd _referenceCount].
  rewrite size_t_small by lia.
  eexists. eexists. split; [reflexivity|]. cbn [objects events].
  split; [reflexivity|]. split; [reflexivity|].
  unfold ref_ptr_from.
  rewrite (addReference_if_live b p _ {| _referenceCount := n - 1 |})
    by apply lookup_insert_eq.
  cbn [mbind option_bind objects events addReference snd _referenceCount].
  split; [reflexivity|]. split; [|reflexivity].
  rewrite size_t_small by lia. rewrite insert_insert_eq.
  replace (n - 1 + 1) with n by lia. apply insert_id. exact Hp.
Qed.

Lemma release_then_wrap_witness :
  exists m1 m2,
    ref_ptr_release {| _ptr := Some 7%nat |}
        {| objects := {[ 7%nat := {| _referenceCount := 1 |} ]}; events := [] |}
      = Some (Some 7%nat, {| _ptr := None |}, m1)
    /\ objects m1 = <[7%nat := {| _referenceCount := 1 - 1 |}]>
                      {[ 7%nat := {| _referenceCount := 1 |} ]}
    /\ events m1 = []
    /\ ref_ptr_from GNUC (Some 7%nat) m1 = Some ({| _ptr := Some 7%nat |}, m2)
    /\ objects m2 = {[ 7%nat := {| _referenceCount := 1 |} ]}
    /\ events m2 = [] ++ [EvAddReference 7].
Proof.
  refine (release_then_wrap GNUC 7
            {| objects := {[ 7%nat := {| _referenceCount := 1 |} ]};
               events := [] |} 1 _ _).
  - reflexivity.
  - lia.
Defined.

(** A handle made from a raw pointer and destroyed again is neutral only
    for an object that is held elsewhere. On an object nobody holds yet
    (count 0) the temporary handle is the first and the last holder: with
    [__sync_sub_and_fetch] its destruction deletes the object. *)
Theorem temporary_handle (p : nat) (m : memory) (n : Z) :
  objects m !! p = Some {| _referenceCount := n |} ->
  0 <= n < 2 ^ 32 - 1 ->
  exists h m1 h' m2,
    ref_ptr_from GNUC (Some p) m = Some (h, m1)
    /\ ref_ptr_destroy GNUC h m1 = Some (h', m2)
    /\ _ptr h' = None
    /\ (n = 0 ->
        objects m2 = delete p (objects m)
        /\ events m2 = events m ++ [EvAddReference p; EvRemoveReference p;
                                    EvDelete p])
    /\ (0 < n ->
        objects m2 = objects m
        /\ events m2 = events m ++ [EvAddReference p; EvRemoveReference p]).
Proof.
  intros Hp Hn. unfold ref_ptr_from.
  rewrite (addReference_if_live GNUC p m _ Hp).
  cbn [mbind option_bind addReference snd _referenceCount].
  rewrite size_t_small by lia.
  eexists. eexists. eexists. eexists. split; [reflexivity|].
  unfold ref_ptr_destroy. cbn [_ptr].
  rewrite (removeReference_if_live GNUC p _ {| _referenceCount := n + 1 |})
    by apply lookup_insert_eq.
  cbn [mbind option_bind]. split; [reflexivity|]. split; [reflexivity|].
  unfold removeReference, capture. cbn [snd fst _referenceCount objects events].
  rewrite size_t_small by lia. rewrite int_eqb_zero by lia.
  replace (n + 1 - 1) with n by lia.
  split; intros Hcase.
  - subst n. cbn [Z.eqb objects events]. rewrite delete_insert_eq.
    rewrite <- app_assoc. split; reflexivity.
  - replace (n =? 0) with false by (symmetry; apply Z.eqb_neq; lia).
    cbn [objects events]. rewrite insert_insert_eq, insert_id by exact Hp.
    rewrite <- app_assoc. split; reflexivity.
Qed.

Lemma temporary_handle_witness :
  exists h m1 h' m2,
    ref_ptr_from GNUC (Some 7%nat)
        {| objects := {[ 7%nat := {| _referenceCount := 0 |} ]}; events := [] |}
      = Some (h, m1)
    /\ ref_ptr_destroy GNUC h m1 = Some (h', m2)
    /\ _ptr h' = None
    /\ objects m2 = delete 7%nat {[ 7%nat := {| _referenceCount := 0 |} ]}
    /\ events m2 = [] ++ [EvAddReference 7; EvRemoveReference 7; EvDelete 7].
Proof.
  destruct (temporary_handle 7
              {| objects := {[ 7%nat := {| _referenceCount := 0 |} ]};
                 events := [] |} 0)
    as (h & m1 & h' & m2 & H1 & H2 & H3 & H4 & _); [reflexivity | lia |].
  exists h, m1, h', m2. destruct (H4 eq_refl) as [H5 H6].
  repeat split; assumption.
Defined.

(** ** The collector as a buffer *)

Section ReplayProperties.
Context {double Vector3d : Type} `{!Numerics double Vector3d}.
Context {X : Type}.

Local Abbreviation heap := (gmap nat (@Candidate double Vector3d)).
Local Abbreviation world := (@world double Vector3d X).
Local Abbreviation Module := (@Module double Vector3d X).

Lemma process_list_shared (cs : list nat) :
  forall (pc : ParticleCollector) (h : heap),
    clone pc = false ->
    ParticleCollector_process_list pc cs h
    = Some ({| container := container pc ++ cs; nBuffer := nBuffer pc;
               clone := false; recursive := recursive pc |}, h).
Proof.
  induction cs as [|c cs IH]; intros pc h Hclone.
  - cbn [ParticleCollector_process_list]. rewrite app_nil_r.
    destruct pc; cbn in *; subst; reflexivity.
  - cbn [ParticleCollector_process_list].
    rewrite ParticleCollector_process_shares by exact Hclone.
    cbn [mbind option_bind]. rewrite IH by exact Hclone.
    unfold push_back. cbn [container nBuffer clone recursive].
    rewrite <- app_assoc. reflexivity.
Qed.

(** A collector that does not clone is an append-only buffer of the
    handles it was given: after [process] on c1..cn the size has grown by
    n, whatever [nBuffer] was reserved, the earlier entries are where they
    were, entry [size + k] is the k-th candidate processed, and no
    candidate was touched. *)
Theorem collector_appends_in_order (pc : ParticleCollector) (cs : list nat)
    (h : heap) :
  clone pc = false ->
  exists pc',
    ParticleCollector_process_list pc cs h = Some (pc', h)
    /\ ParticleCollector_size pc'
       = (ParticleCollector_size pc + length cs)%nat
    /\ (forall i e, ParticleCollector_at pc i = Some e ->
                    ParticleCollector_at pc' i = Some e)
    /\ (forall k, ParticleCollector_at pc' (ParticleCollector_size pc + k)
                  = cs !! k)
    /\ nBuffer pc' = nBuffer pc /\ clone pc' = false
    /\ recursive pc' = recursive pc.
Proof.
  intros Hclone. eexists. split; [apply process_list_shared; exact Hclone|].
  unfold ParticleCollector_size, ParticleCollector_at.
  cbn [container nBuffer clone recursive].
  split; [apply length_app|]. split.
  { intros i e Hi. apply lookup_app_l_Some. exact Hi. }
  split; [| repeat split].
  intros k. rewrite lookup_app_r by lia. f_equal. lia.
Qed.

Lemma reprocess_from_shared (entries : list nat) (action : Module) :
  forall w : world,
    reprocess_from entries false action w
    = Some (fold_left (fun w e => action e w) entries w).
Proof.
  induction entries as [|e entries IH]; intros w; [reflexivity|].
  cbn [reprocess_from fold_left]. apply IH.
Qed.

(** Without cloning, [reprocess] hands the action the stored candidates
    themselves, in the order in which [process] received them: replaying
    a buffer filled with c1..cn calls the action on c1, ..., cn, and what
    the action changes is changed in the live candidates. *)
Theorem reprocess_replays_in_order (pc : ParticleCollector) (cs : list nat)
    (h : heap) (action : Module) (w : world) :
  clone pc = false ->
  exists pc',
    ParticleCollector_process_list pc cs h = Some (pc', h)
    /\ ParticleCollector_reprocess pc' action w
       = Some (fold_left (fun w e => action e w) (container pc ++ cs) w).
Proof.
  intros Hclone. eexists. split; [apply process_list_shared; exact Hclone|].
  unfold ParticleCollector_reprocess. cbn [container clone].
  apply reprocess_from_shared.
Qed.

Lemma reprocess_from_cloned_keeps (old : gset nat) (action : Module)
    (w0 : world) (entries : list nat) :
  local_module action ->
  old = dom (cands w0) ->
  (forall e, e ∈ entries -> e ∈ old) ->
  forall w : world,
    (forall r, r ∈ old -> cands w !! r = cands w0 !! r) ->
    separated old (cands w) ->
    exists w',
      reprocess_from entries true action w = Some w'
      /\ forall r, r ∈ old -> cands w' !! r = cands w0 !! r.
Proof.
  intros Hloc Hold. induction entries as [|e entries IH];
    intros Hentries w Hsame Hsep.
  - exists w. split; [reflexivity | exact Hsame].
  - cbn [reprocess_from].
    assert (e ∈ old) as He by (apply Hentries; left).
    assert (is_Some (cands w !! e)) as [c Hc].
    { rewrite (Hsame e He). apply elem_of_dom. rewrite <- Hold. exact He. }
    rewrite (Candidate_clone_flat _ _ _ Hc). cbn [mbind option_bind].
    set (q := fresh (dom (cands w))).
    assert (q ∉ old) as Hq.
    { intros Hin. apply (is_fresh (dom (cands w))). fold q.
      apply elem_of_dom. rewrite (Hsame q Hin). apply elem_of_dom.
      rewrite <- Hold. exact Hin. }
    set (w1 := with_cands (<[q := setSecondaries [] c]> (cands w)) w).
    assert (forall r, r ∈ old -> cands w1 !! r = cands w0 !! r) as Hsame1.
    { intros r Hr. unfold w1. cbn [cands with_cands].
      rewrite lookup_insert_ne by (intros ->; contradiction).
      apply Hsame. exact Hr. }
    assert (separated old (cands w1)) as Hsep1.
    { intros r cr Hr Hnot s Hs. unfold w1 in Hr. cbn [cands with_cands] in Hr.
      destruct (decide (q = r)) as [<- | Hne].
      - rewrite lookup_insert_eq in Hr. injection Hr as <-.
        cbn in Hs. inversion Hs.
      - rewrite lookup_insert_ne in Hr by assumption.
        exact (Hsep r cr Hr Hnot s Hs). }
    assert (old ⊆ dom (cands w1)) as Hdom1.
    { intros r Hr. apply elem_of_dom. rewrite (Hsame1 r Hr).
      apply elem_of_dom. rewrite <- Hold. exact Hr. }
    destruct (Hloc old q w1 Hdom1 Hq Hsep1) as [Hkeep Hsep2].
    apply IH.
    + intros e' He'. apply Hentries. right. exact He'.
    + intros r Hr. rewrite Hkeep by exact Hr. apply Hsame1. exact Hr.
    + exact Hsep2.
Qed.


End ReplayProperties.

Lemma collector_appends_in_order_witness :
  exists pc',
    ParticleCollector_process_list (ParticleCollector_1
        {| unset_nBuffer := 1; unset_clone := true; unset_recursive := true |} 1)
      [0%nat; 1%nat; 0%nat] sample_family = Some (pc', sample_family)
    /\ ParticleCollector_size pc' = 3%nat.
Proof.
  destruct (collector_appends_in_order
              (ParticleCollector_1
                 {| unset_nBuffer := 1; unset_clone := true;
                    unset_recursive := true |} 1)
              [0%nat; 1%nat; 0%nat] sample_family)
    as (pc' & Hrun & Hsize & _); [reflexivity|].
  exists pc'. split; [exact Hrun | exact Hsize].
Defined.

Lemma reprocess_replays_in_order_witness :
  exists pc',
    ParticleCollector_process_list ParticleCollector_0 [1%nat; 0%nat]
        sample_family = Some (pc', sample_family)
    /\ ParticleCollector_reprocess (X := unit) pc' deactivate
         {| cands := sample_family; ext := tt |}
       = Some (fold_left (fun w e => deactivate e w)
                 (container ParticleCollector_0 ++ [1%nat; 0%nat])
                 {| cands := sample_family; ext := tt |}).
Proof.
  refine (reprocess_replays_in_order (X := unit) ParticleCollector_0
            [1%nat; 0%nat] sample_family deactivate
            {| cands := sample_family; ext := tt |} _).
  reflexivity.
Defined.


(** ** PhotonOutput1D over a run *)

Section OutputProperties.
Context {double Vector3d : Type} `{!Numerics double Vector3d}.

Local Abbreviation heap := (gmap nat (@Candidate double Vector3d)).

Lemma PhotonOutput1D_process_cases (p : nat) (h : heap)
    (out : list photon_line) (c : Candidate) :
  h !! p = Some c ->
  PhotonOutput1D_process p h out
  = Some (if is_electromagnetic c
          then (<[p := setActive false c]> h, out ++ [format_line c])
          else (h, out)).
Proof.
  intros Hc. unfold PhotonOutput1D_process, is_electromagnetic. rewrite Hc.
  cbn [mbind option_bind].
  destruct (id (current c) =? 22), (Z.abs (id (current c)) =? 11); reflexivity.
Qed.

Lemma photon_line_of_deactivated (h : heap) (p0 : nat) (c0 : Candidate) p :
  h !! p0 = Some c0 ->
  photon_line_of (<[p0 := setActive false c0]> h) p = photon_line_of h p.
Proof.
  intros Hc0. unfold photon_line_of.
  destruct (decide (p0 = p)) as [<- | Hne].
  - rewrite lookup_insert_eq, Hc0. reflexivity.
  - rewrite lookup_insert_ne by assumption. reflexivity.
Qed.

Lemma omap_pointwise {A B} (f g : A -> option B) (l : list A) :
  (forall a, f a = g a) -> omap f l = omap g l.
Proof.
  intros Hfg. induction l as [|a l IH]; [reflexivity|].
  cbn [omap list_omap]. rewrite Hfg, IH. reflexivity.
Qed.

(** Over any sequence of live candidates, repeats included,
    [PhotonOutput1D::process] appends to the stream exactly the records of
    the photons, electrons and positrons among them, in call order, each
    computed from the state before the run: the active flag is not read,
    so a candidate handed twice is written twice. Afterwards exactly those
    candidates are inactive and nothing else has changed. *)
Theorem PhotonOutput1D_process_list_output (ps : list nat) :
  forall (h : heap) (out : list photon_line),
    (forall p, p ∈ ps -> is_Some (h !! p)) ->
    exists h',
      PhotonOutput1D_process_list ps h out
        = Some (h', out ++ omap (photon_line_of h) ps)
      /\ forall p,
          h' !! p
          = (fun c => if is_electromagnetic c && bool_decide (p ∈ ps)
                      then setActive false c else c) <$> (h !! p).
Proof.
  induction ps as [|p0 ps IH]; intros h out Hlive.
  - exists h. cbn [PhotonOutput1D_process_list omap list_omap].
    rewrite app_nil_r. split; [reflexivity|]. intros p.
    destruct (h !! p) as [c|]; [|reflexivity]. cbn.
    rewrite bool_decide_eq_false_2 by apply not_elem_of_nil.
    rewrite andb_false_r. reflexivity.
  - destruct (Hlive p0 ltac:(left)) as [c0 Hc0].
    cbn [PhotonOutput1D_process_list].
    rewrite (PhotonOutput1D_process_cases p0 h out c0 Hc0).
    cbn [mbind option_bind omap list_omap].
    unfold photon_line_of at 1. rewrite Hc0. cbn [mbind option_bind].
    destruct (is_electromagnetic c0) eqn:Hem.
    + destruct (IH (<[p0 := setActive false c0]> h) (out ++ [format_line c0]))
        as (h' & Hrun & Hh').
      { intros p Hp. destruct (decide (p0 = p)) as [<- | Hne].
        - rewrite lookup_insert_eq. eauto.
        - rewrite lookup_insert_ne by assumption. apply Hlive. right. exact Hp. }
      exists h'. split.
      * rewrite Hrun. rewrite <- app_assoc. cbn [app].
        rewrite (omap_pointwise _ (photon_line_of h));
          [reflexivity | intros a; apply photon_line_of_deactivated; exact Hc0].
      * intros p. rewrite Hh'. destruct (decide (p0 = p)) as [<- | Hne].
        -- rewrite lookup_insert_eq, Hc0. cbn [fmap option_fmap option_map].
           change (is_electromagnetic (setActive false c0))
             with (is_electromagnetic c0).
           rewrite Hem. rewrite (bool_decide_eq_true_2 (p0 ∈ p0 :: ps))
             by left. cbn [andb].
           destruct (bool_decide (p0 ∈ ps)); reflexivity.
        -- rewrite lookup_insert_ne by assumption.
           destruct (h !! p) as [c|]; [|reflexivity].
           cbn [fmap option_fmap option_map].
           rewrite (bool_decide_ext (p ∈ p0 :: ps) (p ∈ ps))
             by (rewrite elem_of_cons; split;
                 [intros [Heq | Hin]; [congruence | exact Hin]
                 | intros Hin; right; exact Hin]).
           reflexivity.
    + destruct (IH h out) as (h' & Hrun & Hh').
      { intros p Hp. apply Hlive. right. exact Hp. }
      exists h'. split; [exact Hrun|].
      intros p. rewrite Hh'. destruct (h !! p) as [c|] eqn:Hc; [|reflexivity].
      cbn [fmap option_fmap option_map]. f_equal.
      destruct (decide (p0 = p)) as [<- | Hne].
      * assert (c = c0) as -> by congruence. rewrite Hem. reflexivity.
      * rewrite (bool_decide_ext (p ∈ p0 :: ps) (p ∈ ps))
          by (rewrite elem_of_cons; split;
                 [intros [Heq | Hin]; [congruence | exact Hin]
                 | intros Hin; right; exact Hin]).
        reflexivity.
Qed.

End OutputProperties.

Lemma PhotonOutput1D_process_list_output_witness :
  exists h',
    PhotonOutput1D_process_list [1%nat; 0%nat; 1%nat] sample_family []
      = Some (h', [] ++ omap (photon_line_of sample_family)
                          [1%nat; 0%nat; 1%nat])
    /\ forall p,
        h' !! p
        = (fun c => if is_electromagnetic c
                       && bool_decide (p ∈ [1%nat; 0%nat; 1%nat])
                    then setActive false c else c) <$> (sample_family !! p).
Proof.
  refine (PhotonOutput1D_process_list_output [1%nat; 0%nat; 1%nat]
            sample_family [] _).
  intros p Hp. apply elem_of_dom.
  assert (p = 1%nat \/ p = 0%nat) as [-> | ->]
    by (rewrite !elem_of_cons in Hp; rewrite elem_of_nil in Hp; tauto);
    apply elem_of_dom; eexists; reflexivity.
Defined.

(** On that input: the photon is written twice, the nucleus not at all. *)
Example PhotonOutput1D_process_list_run :
  snd <$> PhotonOutput1D_process_list [1%nat; 0%nat; 1%nat] sample_family []
  = Some [format_line (candidate_of 22 true);
          format_line (candidate_of 22 true)].
Proof. vm_compute. reflexivity. Qed.

(** ** PerformanceModule as a wrapper *)

Section WrapperProperties.
Context {double Vector3d : Type} `{!Numerics double Vector3d}.
Context {X EmissionMap : Type}.

Local Abbreviation heap := (gmap nat (@Candidate double Vector3d)).
Local Abbreviation world := (@world double Vector3d X).
Local Abbreviation Module := (@Module double Vector3d X).
Local Abbreviation PerformanceModule := (@PerformanceModule double Vector3d X).
Local Abbreviation _module_info := (@_module_info double Vector3d X).

Lemma measure_world (getMillisecond : world -> double)
    (ms : list _module_info) (c : nat) :
  forall w : world,
    snd (measure getMillisecond ms c w)
    = fold_left (fun w m => m c w) (map module ms) w.
Proof.
  induction ms as [|m ms IH]; intros w; [reflexivity|].
  cbn [measure map fold_left]. specialize (IH (module m c w)).
  destruct (measure getMillisecond ms c (module m c w)) as [times w2].
  exact IH.
Qed.

Lemma process_all_world (getMillisecond : world -> double)
    (ms : list Module) (cs : list nat) :
  forall (pm : PerformanceModule) (w : world),
    map module (perf_modules pm) = ms ->
    snd (fst (process_all getMillisecond pm cs w))
    = fold_left (fun w c => fold_left (fun w m => m c w) ms w) cs w.
Proof.
  induction cs as [|c cs IH]; intros pm w Hms; [reflexivity|].
  cbn [process_all fold_left]. rewrite process_unfold.
  specialize (IH (merge (measured getMillisecond pm c w) pm)
                 (snd (measure getMillisecond (perf_modules pm) c w))).
  destruct (process_all getMillisecond
              (merge (measured getMillisecond pm c w) pm) cs
              (snd (measure getMillisecond (perf_modules pm) c w)))
    as [[pm2 w2] log].
  cbn [fst snd] in *. rewrite IH.
  - rewrite measure_world, Hms. reflexivity.
  - rewrite merge_modules; [exact Hms | apply measure_length].
Qed.

(** Wrapping modules in a [PerformanceModule] does not change what they do:
    over any sequence of [process] calls the world ends as if, for each
    candidate in turn, the wrapped modules had been called directly in the
    order in which they were added, whatever the clock reads. With no
    module wrapped the world is left as it is. *)
Theorem PerformanceModule_transparent (getMillisecond : world -> double)
    (ms : list Module) (cs : list nat) (w : world) :
  snd (fst (process_all getMillisecond (PerformanceModule_of ms) cs w))
  = fold_left (fun w c => fold_left (fun w m => m c w) ms w) cs w
  /\ snd (fst (process_all getMillisecond (PerformanceModule_of []) cs w)) = w.
Proof.
  assert (forall ms' : list Module,
            map module (perf_modules (PerformanceModule_of ms')) = ms')
    as Hof.
  { intros ms'. destruct (PerformanceModule_of_modules ms') as [-> _].
    rewrite map_map. cbn [module]. apply map_id. }
  split.
  - apply process_all_world. apply Hof.
  - rewrite (process_all_world getMillisecond [] cs _ w (Hof [])).
    induction cs as [|c cs IH]; [reflexivity | exact IH].
Qed.

(** ** ParticleFilter and its set *)

Lemma elem_addId (y x : Z) (ids : gset Z) :
  y ∈ addId x ids <-> y = x \/ y ∈ ids.
Proof. unfold addId. rewrite elem_of_union, elem_of_singleton. reflexivity. Qed.

Lemma elem_removeId (y x : Z) (ids : gset Z) :
  y ∈ removeId x ids <-> y ∈ ids /\ y <> x.
Proof.
  unfold removeId. rewrite elem_of_difference, elem_of_singleton. reflexivity.
Qed.

(** [addId] and [removeId] decide what [process] does with that id and
    with no other: after [addId(x)] a candidate of id x is accepted, after
    [removeId(x)] it is rejected, whatever the set held before; the
    decision for a candidate of any other id is unchanged; and a filter
    with an empty set, as the default constructor makes it, rejects every
    candidate. *)
Theorem ParticleFilter_ids (accept reject : Module) (ids : gset Z)
    (candidate : nat) (w : world) (c : Candidate) (x : Z) :
  cands w !! candidate = Some c ->
  (id (current c) = x ->
     ParticleFilter_process accept reject (addId x ids) candidate w
       = Some (Accept, accept candidate w)
     /\ ParticleFilter_process accept reject (removeId x ids) candidate w
       = Some (Reject, reject candidate w))
  /\ (id (current c) <> x ->
        ParticleFilter_process accept reject (addId x ids) candidate w
          = ParticleFilter_process accept reject ids candidate w
        /\ ParticleFilter_process accept reject (removeId x ids) candidate w
          = ParticleFilter_process accept reject ids candidate w)
  /\ ParticleFilter_process accept reject ∅ candidate w
     = Some (Reject, reject candidate w).
Proof.
  intros Hc. unfold ParticleFilter_process. rewrite Hc.
  cbn [mbind option_bind]. split; [| split].
  - intros <-. split.
    + rewrite decide_True by (apply elem_addId; left; reflexivity).
      reflexivity.
    + rewrite decide_False by (rewrite elem_removeId; tauto). reflexivity.
  - intros Hne. split.
    + destruct (decide (id (current c) ∈ ids)) as [Hin | Hout].
      * rewrite decide_True by (apply elem_addId; right; exact Hin).
        reflexivity.
      * rewrite decide_False by (rewrite elem_addId; tauto). reflexivity.
    + destruct (decide (id (current c) ∈ ids)) as [Hin | Hout].
      * rewrite decide_True by (rewrite elem_removeId; tauto). reflexivity.
      * rewrite decide_False by (rewrite elem_removeId; tauto). reflexivity.
  - rewrite decide_False by apply not_elem_of_empty. reflexivity.
Qed.

(** ** EmissionMapFiller over a run *)

Lemma filler_list_configured
    (fillMap : ParticleState -> EmissionMap -> EmissionMap)
    (f : EmissionMapFiller) (e : nat) (h : heap) (ps : list nat) :
  emissionMap f = Some e ->
  forall (cs : list Candidate) (maps : gmap nat EmissionMap) (em : EmissionMap),
    Forall2 (fun p c => h !! p = Some c) ps cs ->
    maps !! e = Some em ->
    EmissionMapFiller_process_list fillMap f ps h maps
    = Some (<[e := fold_left (fun em c => fillMap (source c) em) cs em]> maps).
Proof.
  intros He. induction ps as [|p ps IH]; intros cs maps em Hall Hem.
  - apply Forall2_nil_inv_l in Hall. subst cs. cbn.
    rewrite insert_id by exact Hem. reflexivity.
  - apply Forall2_cons_inv_l in Hall as (c & cs' & Hc & Hall & ->).
    cbn [EmissionMapFiller_process_list fold_left].
    unfold EmissionMapFiller_process at 1. rewrite He, Hc, Hem.
    cbn [mbind option_bind].
    rewrite (IH cs' _ (fillMap (source c) em) Hall)
      by apply lookup_insert_eq.
    rewrite insert_insert_eq. reflexivity.
Qed.

(** Over a sequence of live candidates the filler applies [fillMap] to the
    configured emission map once per call, with the source states in call
    order, and leaves every other map alone; the candidates are only
    read. A filler without an emission map returns at once for any
    handles, without looking at them. *)
Theorem EmissionMapFiller_process_list_fills
    (fillMap : ParticleState -> EmissionMap -> EmissionMap)
    (f : EmissionMapFiller) (h : heap) (ps : list nat)
    (maps : gmap nat EmissionMap) :
  (forall e cs em,
      emissionMap f = Some e ->
      Forall2 (fun p c => h !! p = Some c) ps cs ->
      maps !! e = Some em ->
      exists maps',
        EmissionMapFiller_process_list fillMap f ps h maps = Some maps'
        /\ maps' !! e
           = Some (fold_left (fun em c => fillMap (source c) em) cs em)
        /\ forall e', e' <> e -> maps' !! e' = maps !! e')
  /\ (emissionMap f = None ->
      EmissionMapFiller_process_list fillMap f ps h maps = Some maps).
Proof.
  split.
  - intros e cs em He Hall Hem. eexists.
    split; [exact (filler_list_configured fillMap f e h ps He cs maps em Hall Hem)|].
    split; [apply lookup_insert_eq|].
    intros e' Hne. apply lookup_insert_ne. congruence.
  - intros He. induction ps as [|p ps IH]; [reflexivity|].
    cbn [EmissionMapFiller_process_list].
    unfold EmissionMapFiller_process at 1. rewrite He.
    cbn [mbind option_bind]. exact IH.
Qed.

End WrapperProperties.

Lemma ParticleFilter_ids_witness :
  ParticleFilter_process (X := unit) idle deactivate (addId 22 ∅) 1
      {| cands := sample_family; ext := tt |}
    = Some (Accept, idle 1%nat {| cands := sample_family; ext := tt |})
  /\ ParticleFilter_process (X := unit) idle deactivate
       (removeId 22 {[ 22; 11 ]}) 1 {| cands := sample_family; ext := tt |}
    = Some (Reject, deactivate 1%nat {| cands := sample_family; ext := tt |}).
Proof.
  split.
  - refine (proj1 (proj1 (ParticleFilter_ids (X := unit) idle deactivate ∅ 1
              {| cands := sample_family; ext := tt |}
              (candidate_of 22 true) 22 _) _)); reflexivity.
  - refine (proj2 (proj1 (ParticleFilter_ids (X := unit) idle deactivate
              {[ 22; 11 ]} 1 {| cands := sample_family; ext := tt |}
              (candidate_of 22 true) 22 _) _)); reflexivity.
Defined.

Lemma EmissionMapFiller_process_list_fills_witness :
  exists maps',
    EmissionMapFiller_process_list (fun s (em : list Z) => id s :: em)
      {| emissionMap := Some 5%nat |} [1%nat; 0%nat; 1%nat] sample_family
      {[ 5%nat := [] ]} = Some maps'
    /\ maps' !! 5%nat = Some [1000260560; 1000260560; 1000260560].
Proof.
  destruct (proj1 (EmissionMapFiller_process_list_fills
                     (fun s (em : list Z) => id s :: em)
                     {| emissionMap := Some 5%nat |} sample_family
                     [1%nat; 0%nat; 1%nat] {[ 5%nat := [] ]})
              5%nat
              [candidate_of 22 true;
               setSecondaries [1%nat] (candidate_of 1000260560 true);
               candidate_of 22 true] [])
    as (maps' & Hrun & He & _).
  - reflexivity.
  - repeat constructor.
  - reflexivity.
  - exists maps'. split; [exact Hrun | exact He].
Defined.

(** ** Nested loops and uniform blocks *)

Lemma fold_left_bind {A B S} (f : S -> B -> S) (g : A -> list B) (l : list A) :
  forall st,
    fold_left f (l ≫= g) st = fold_left (fun st a => fold_left f (g a) st) l st.
Proof.
  induction l as [|a l IH]; intros st; [reflexivity|].
  rewrite bind_cons, fold_left_app. cbn [fold_left]. apply IH.
Qed.

Lemma fold_left_fmap {A B S} (f : S -> B -> S) (g : A -> B) (l : list A) :
  forall st, fold_left f (g <$> l) st = fold_left (fun st a => f st (g a)) l st.
Proof.
  induction l as [|a l IH]; intros st; [reflexivity|].
  cbn [fmap list_fmap fold_left]. apply IH.
Qed.

Lemma fold_left_pointwise {A S} (f g : S -> A -> S) (l : list A) :
  (forall st a, f st a = g st a) ->
  forall st, fold_left f l st = fold_left g l st.
Proof.
  intros Hfg. induction l as [|a l IH]; intros st; [reflexivity|].
  cbn [fold_left]. rewrite Hfg. apply IH.
Qed.

Lemma fold_left_append {A B} (h : A -> list B) (l : list A) :
  forall acc, fold_left (fun acc a => acc ++ h a) l acc = acc ++ (l ≫= h).
Proof.
  induction l as [|a l IH]; intros acc.
  - cbn. rewrite app_nil_r. reflexivity.
  - cbn [fold_left]. rewrite IH, bind_cons, app_assoc. reflexivity.
Qed.

Lemma length_bind_uniform {A B} (f : A -> list B) (n : nat) (l : list A) :
  (forall a, a ∈ l -> length (f a) = n) ->
  length (l ≫= f) = (length l * n)%nat.
Proof.
  induction l as [|a l IH]; intros Hn; [reflexivity|].
  rewrite bind_cons, length_app, IH.
  - rewrite (Hn a) by left. cbn [length]. lia.
  - intros a' Ha'. apply Hn. right. exact Ha'.
Qed.

(** The k-th block of a concatenation of blocks of one length. *)
Lemma block_bind_uniform {A B} (f : A -> list B) (n : nat) (l : list A) :
  (forall a, length (f a) = n) ->
  forall k a rest,
    l !! k = Some a ->
    take n (drop (k * n) ((l ≫= f) ++ rest)) = f a.
Proof.
  intros Hn. induction l as [|a0 l IH]; intros k a rest Hk; [discriminate|].
  rewrite bind_cons, <- app_assoc. destruct k as [|k].
  - injection Hk as ->. cbn [Nat.mul drop].
    apply take_app_length'. symmetry. apply Hn.
  - cbn [lookup list_lookup] in Hk.
    replace (S k * n)%nat with (length (f a0) + k * n)%nat
      by (rewrite Hn; lia).
    rewrite drop_app_add. apply IH. exact Hk.
Qed.

Lemma lookup_bind_uniform {A B} (f : A -> list B) (n : nat) (l : list A) :
  (forall a, length (f a) = n) ->
  forall i j a,
    l !! i = Some a -> (j < n)%nat ->
    (l ≫= f) !! (i * n + j)%nat = f a !! j.
Proof.
  intros Hn. induction l as [|a0 l IH]; intros i j a Hi Hj; [discriminate|].
  rewrite bind_cons. destruct i as [|i].
  - injection Hi as ->. cbn [Nat.mul Nat.add].
    apply lookup_app_l. rewrite Hn. exact Hj.
  - cbn [lookup list_lookup] in Hi.
    rewrite lookup_app_r by (rewrite Hn; lia).
    replace (S i * n + j - length (f a0))%nat with (i * n + j)%nat
      by (rewrite Hn; lia).
    apply IH; assumption.
Qed.

(** ** Scalar grids *)

Section GridProperties.
Context {float double : Type} `{!Float32 float double}.

Local Abbreviation Grid1f := (@Grid1f float).

Lemma loop3_indices {S} (nx ny nz : nat) (body : nat -> nat -> nat -> S -> S)
    (st : S) :
  loop3 nx ny nz body st
  = fold_left (fun st idx => body idx.1.1 idx.1.2 idx.2 st)
      (indices nx ny nz) st.
Proof.
  unfold loop3, indices. rewrite fold_left_bind.
  apply fold_left_pointwise. intros st1 ix. rewrite fold_left_bind.
  apply fold_left_pointwise. intros st2 iy. rewrite fold_left_fmap.
  reflexivity.
Qed.

Lemma elem_of_indices (nx ny nz ix iy iz : nat) :
  (ix, iy, iz) ∈ indices nx ny nz
  <-> (ix < nx)%nat /\ (iy < ny)%nat /\ (iz < nz)%nat.
Proof.
  unfold indices. rewrite list_elem_of_bind. split.
  - intros (x & Hin & Hx). apply list_elem_of_bind in Hin as (y & Hin & Hy).
    apply list_elem_of_fmap in Hin as (z & Heq & Hz).
    injection Heq as -> -> ->.
    apply elem_of_seq in Hx, Hy, Hz. lia.
  - intros (Hx & Hy & Hz). exists ix. split; [| apply elem_of_seq; lia].
    apply list_elem_of_bind. exists iy. split; [| apply elem_of_seq; lia].
    apply list_elem_of_fmap. exists iz. split; [reflexivity|].
    apply elem_of_seq. lia.
Qed.

Lemma NoDup_indices (nx ny nz : nat) : NoDup (indices nx ny nz).
Proof.
  unfold indices. apply NoDup_bind; [| | apply NoDup_seq].
  - intros x1 x2 [[a b] c] _ _ H1 H2.
    apply list_elem_of_bind in H1 as (y1 & H1 & _).
    apply list_elem_of_bind in H2 as (y2 & H2 & _).
    apply list_elem_of_fmap in H1 as (z1 & Heq1 & _).
    apply list_elem_of_fmap in H2 as (z2 & Heq2 & _). congruence.
  - intros ix _. apply NoDup_bind; [| | apply NoDup_seq].
    + intros y1 y2 [[a b] c] _ _ H1 H2.
      apply list_elem_of_fmap in H1 as (z1 & Heq1 & _).
      apply list_elem_of_fmap in H2 as (z2 & Heq2 & _). congruence.
    + intros iy _. apply NoDup_fmap_2; [| apply NoDup_seq].
      intros z1 z2 Heq. congruence.
Qed.

Lemma length_indices (nx ny nz : nat) :
  length (indices nx ny nz) = (nx * ny * nz)%nat.
Proof.
  unfold indices.
  rewrite (length_bind_uniform _ (ny * nz)), length_seq; [lia|].
  intros ix _. rewrite (length_bind_uniform _ nz), length_seq; [lia|].
  intros iy _. rewrite length_fmap. apply length_seq.
Qed.

Lemma indices_lookup (nx ny nz ix iy iz : nat) :
  (ix < nx)%nat -> (iy < ny)%nat -> (iz < nz)%nat ->
  indices nx ny nz !! ((ix * ny + iy) * nz + iz)%nat = Some (ix, iy, iz).
Proof.
  intros Hx Hy Hz. unfold indices.
  replace ((ix * ny + iy) * nz + iz)%nat
    with (ix * (ny * nz) + (iy * nz + iz))%nat by lia.
  assert (forall x y : nat,
            length ((fun iz => (x, y, iz)) <$> seq 0 nz) = nz) as Hrow.
  { intros x y. rewrite length_fmap. apply length_seq. }
  assert (forall x : nat,
            length (seq 0 ny ≫= fun iy => (fun iz => (x, iy, iz)) <$> seq 0 nz)
            = (ny * nz)%nat) as Hplane.
  { intros x. rewrite (length_bind_uniform _ nz), length_seq; [reflexivity|].
    intros y _. apply Hrow. }
  rewrite (lookup_bind_uniform _ (ny * nz) _ Hplane ix (iy * nz + iz) ix);
    [| rewrite lookup_seq_lt by exact Hx; reflexivity | nia].
  rewrite (lookup_bind_uniform _ nz _ (Hrow ix) iy iz iy);
    [| rewrite lookup_seq_lt by exact Hy; reflexivity | exact Hz].
  rewrite list_lookup_fmap, lookup_seq_lt by exact Hz. reflexivity.
Qed.

Lemma cell_set_cell (g : Grid1f) (ix iy iz : nat) (v : float) idx :
  cell (set_cell g ix iy iz v) idx
  = if decide (idx = (ix, iy, iz)) then v else cell g idx.
Proof.
  destruct idx as [[a b] c]. unfold cell, set_cell. cbn [get fst snd].
  destruct (decide (a = ix /\ b = iy /\ c = iz)) as [(-> & -> & ->) | Hne].
  - rewrite decide_True by reflexivity. reflexivity.
  - rewrite decide_False; [reflexivity|]. intros [= -> -> ->]. tauto.
Qed.

(** The loop of [scaleGrid] over a list of distinct cells. *)
Lemma scale_cells (a : double) (idxs : list (nat * nat * nat)) :
  NoDup idxs ->
  forall g : Grid1f,
    let g' := fold_left
                (fun g idx =>
                   set_cell g idx.1.1 idx.1.2 idx.2
                     (f_scale (get g idx.1.1 idx.1.2 idx.2) a))
                idxs g in
    getNx g' = getNx g /\ getNy g' = getNy g /\ getNz g' = getNz g
    /\ (forall idx, idx ∈ idxs -> cell g' idx = f_scale (cell g idx) a)
    /\ (forall idx, idx ∉ idxs -> cell g' idx = cell g idx).
Proof.
  induction 1 as [|idx0 idxs Hnot Hnd IH]; intros g; cbn zeta.
  - cbn [fold_left]. repeat split. intros idx Hin. inversion Hin.
  - cbn [fold_left].
    destruct (IH (set_cell g idx0.1.1 idx0.1.2 idx0.2
                    (f_scale (get g idx0.1.1 idx0.1.2 idx0.2) a)))
      as (Hx & Hy & Hz & Hin & Hout).
    split; [exact Hx|]. split; [exact Hy|]. split; [exact Hz|]. split.
    + intros idx Hidx. apply elem_of_cons in Hidx as [-> | Hidx].
      * rewrite (Hout idx0 Hnot), cell_set_cell.
        destruct idx0 as [[x y] z]. rewrite decide_True by reflexivity.
        reflexivity.
      * rewrite (Hin idx Hidx), cell_set_cell.
        rewrite decide_False; [reflexivity|].
        destruct idx0 as [[x y] z]. cbn [fst snd]. intros ->. contradiction.
    + intros idx Hidx. rewrite not_elem_of_cons in Hidx.
      destruct Hidx as [Hne Hidx]. rewrite (Hout idx Hidx), cell_set_cell.
      rewrite decide_False; [reflexivity|].
      destruct idx0 as [[x y] z]. exact Hne.
Qed.

Lemma read_float_enough (bytes : list Byte.byte) (b : float) :
  (4 <= length bytes)%nat ->
  read_float {| unread := bytes; failed := false |} b
  = (f_of_bytes (take 4 bytes), {| unread := drop 4 bytes; failed := false |}).
Proof.
  intros Hlen. unfold read_float. cbn [failed unread].
  destruct (Nat.leb_spec 4 (length bytes)); [reflexivity | lia].
Qed.

(** The loop of [loadGrid] over a list of distinct cells, on a stream that
    holds four bytes for each of them. *)
Lemma load_cells (c : double) (idxs : list (nat * nat * nat)) :
  NoDup idxs ->
  forall (bytes : list Byte.byte) (g : Grid1f),
    (4 * length idxs <= length bytes)%nat ->
    let r := fold_left
               (fun (st : ifstream * Grid1f) idx =>
                  let '(fin, g) := st in
                  let '(b, fin') :=
                    read_float fin (get g idx.1.1 idx.1.2 idx.2) in
                  (fin', set_cell g idx.1.1 idx.1.2 idx.2 (f_scale b c)))
               idxs ({| unread := bytes; failed := false |}, g) in
    failed (fst r) = false
    /\ unread (fst r) = drop (4 * length idxs) bytes
    /\ getNx (snd r) = getNx g /\ getNy (snd r) = getNy g
    /\ getNz (snd r) = getNz g
    /\ (forall k idx, idxs !! k = Some idx ->
          cell (snd r) idx
          = f_scale (f_of_bytes (take 4 (drop (4 * k) bytes))) c)
    /\ (forall idx, idx ∉ idxs -> cell (snd r) idx = cell g idx).
Proof.
  induction 1 as [|idx0 idxs Hnot Hnd IH]; intros bytes g Hlen; cbn zeta.
  - cbn [fold_left fst snd unread failed length]. repeat split.
    intros k idx Hk. discriminate.
  - cbn [fold_left length] in *.
    rewrite read_float_enough by lia.
    set (v := f_scale (f_of_bytes (take 4 bytes)) c).
    destruct (IH (drop 4 bytes) (set_cell g idx0.1.1 idx0.1.2 idx0.2 v))
      as (Hf & Hu & Hx & Hy & Hz & Hin & Hout).
    { rewrite length_drop. lia. }
    split; [exact Hf|]. split.
    { rewrite Hu, drop_drop. f_equal. lia. }
    split; [exact Hx|]. split; [exact Hy|]. split; [exact Hz|]. split.
    + intros [|k] idx Hk.
      * injection Hk as ->. rewrite (Hout idx Hnot), cell_set_cell.
        destruct idx as [[x y] z]. rewrite decide_True by reflexivity.
        reflexivity.
      * cbn [lookup list_lookup] in Hk. rewrite (Hin k idx Hk), drop_drop.
        replace (4 * S k)%nat with (4 + 4 * k)%nat by lia. reflexivity.
    + intros idx Hidx. rewrite not_elem_of_cons in Hidx.
      destruct Hidx as [Hne Hidx]. rewrite (Hout idx Hidx), cell_set_cell.
      rewrite decide_False; [reflexivity|].
      destruct idx0 as [[x y] z]. exact Hne.
Qed.

Lemma scaleGrid_spec (g : Grid1f) (a : double) :
  getNx (scaleGrid g a) = getNx g /\ getNy (scaleGrid g a) = getNy g
  /\ getNz (scaleGrid g a) = getNz g
  /\ (forall ix iy iz, in_grid g ix iy iz ->
        get (scaleGrid g a) ix iy iz = f_scale (get g ix iy iz) a)
  /\ (forall ix iy iz, ~ in_grid g ix iy iz ->
        get (scaleGrid g a) ix iy iz = get g ix iy iz).
Proof.
  unfold scaleGrid. rewrite loop3_indices.
  destruct (scale_cells a _ (NoDup_indices (getNx g) (getNy g) (getNz g)) g)
    as (Hx & Hy & Hz & Hin & Hout).
  split; [exact Hx|]. split; [exact Hy|]. split; [exact Hz|]. split.
  - intros ix iy iz Hgrid. apply (Hin (ix, iy, iz)).
    apply elem_of_indices. exact Hgrid.
  - intros ix iy iz Hgrid. apply (Hout (ix, iy, iz)).
    rewrite elem_of_indices. exact Hgrid.
Qed.

Lemma dumpGrid_bytes (g : Grid1f) (c : double) :
  dumpGrid g true c
  = inr (indices (getNx g) (getNy g) (getNz g)
           ≫= fun idx => f_bytes (f_scale (cell g idx) c)).
Proof.
  unfold dumpGrid. rewrite loop3_indices.
  rewrite (fold_left_append (fun idx => f_bytes (f_scale (cell g idx) c))).
  reflexivity.
Qed.

Lemma dump_block (g : Grid1f) (c : double) rest ix iy iz :
  in_grid g ix iy iz ->
  take 4 (drop (4 * cell_number g ix iy iz)
            ((indices (getNx g) (getNy g) (getNz g)
                ≫= fun idx => f_bytes (f_scale (cell g idx) c)) ++ rest))
  = f_bytes (f_scale (get g ix iy iz) c).
Proof.
  intros (Hx & Hy & Hz). rewrite Nat.mul_comm.
  apply (block_bind_uniform
           (fun idx => f_bytes (f_scale (cell g idx) c)) 4 _
           (fun idx => f_bytes_length _) _ (ix, iy, iz)).
  apply indices_lookup; assumption.
Qed.

Lemma dump_length (g : Grid1f) (c : double) :
  length (indices (getNx g) (getNy g) (getNz g)
            ≫= fun idx => f_bytes (f_scale (cell g idx) c))
  = (4 * cells g)%nat.
Proof.
  rewrite (length_bind_uniform _ 4), length_indices; [unfold cells; lia|].
  intros idx _. apply f_bytes_length.
Qed.

Lemma loadGrid_cells (g : Grid1f) (bytes : list Byte.byte) (c : double) :
  Z.of_nat (cells g) < 2 ^ 64 ->
  Z.of_nat (length bytes) < 2 ^ 63 ->
  (length bytes / 4)%nat = cells g ->
  exists g',
    loadGrid g (Some bytes) c = inr g'
    /\ getNx g' = getNx g /\ getNy g' = getNy g /\ getNz g' = getNz g
    /\ (forall ix iy iz, in_grid g ix iy iz ->
          get g' ix iy iz
          = f_scale (f_of_bytes
                       (take 4 (drop (4 * cell_number g ix iy iz) bytes))) c)
    /\ (forall ix iy iz, ~ in_grid g ix iy iz ->
          get g' ix iy iz = get g ix iy iz).
Proof.
  intros Hcells Hfile Hlen. unfold loadGrid.
  rewrite <- !Nat2Z.inj_mul. fold (cells g).
  change 4 with (Z.of_nat 4). rewrite <- Nat2Z.inj_div, Hlen.
  rewrite Z.eqb_refl. cbn [negb]. rewrite loop3_indices.
  destruct (load_cells c _ (NoDup_indices (getNx g) (getNy g) (getNz g))
              bytes g) as (_ & _ & Hx & Hy & Hz & Hin & Hout).
  { rewrite length_indices. fold (cells g). rewrite <- Hlen.
    pose proof (Nat.Div0.mul_div_le (length bytes) 4). lia. }
  eexists. split; [reflexivity|].
  split; [exact Hx|]. split; [exact Hy|]. split; [exact Hz|]. split.
  - intros ix iy iz (Hix & Hiy & Hiz).
    apply (Hin (cell_number g ix iy iz) (ix, iy, iz)).
    apply indices_lookup; assumption.
  - intros ix iy iz Hgrid. apply (Hout (ix, iy, iz)).
    rewrite elem_of_indices. exact Hgrid.
Qed.

Lemma loadGrid_mismatch (g : Grid1f) (bytes : list Byte.byte) (c : double) :
  Z.of_nat (cells g) < 2 ^ 64 ->
  Z.of_nat (length bytes) < 2 ^ 63 ->
  (length bytes / 4)%nat <> cells g ->
  loadGrid g (Some bytes) c = inl SizeMismatch.
Proof.
  intros Hcells Hfile Hlen. unfold loadGrid.
  rewrite <- !Nat2Z.inj_mul. fold (cells g).
  change 4 with (Z.of_nat 4). rewrite <- Nat2Z.inj_div.
  assert (Z.of_nat (length bytes / 4) < 2 ^ 64).
  { pose proof (Nat.Div0.div_le_upper_bound (length bytes) 4 (length bytes)
                  ltac:(lia)). lia. }
  rewrite !size_t_small by lia.
  replace (Z.of_nat (length bytes / 4) =? Z.of_nat (cells g)) with false
    by (symmetry; apply Z.eqb_neq; lia).
  reflexivity.
Qed.

(** [scaleGrid] scales every cell of the grid exactly once and changes
    nothing else. *)
Theorem scaleGrid_cells (g : Grid1f) (a : double) :
  int_dims g ->
  getNx (scaleGrid g a) = getNx g /\ getNy (scaleGrid g a) = getNy g
  /\ getNz (scaleGrid g a) = getNz g
  /\ (forall ix iy iz, in_grid g ix iy iz ->
        get (scaleGrid g a) ix iy iz = f_scale (get g ix iy iz) a)
  /\ (forall ix iy iz, ~ in_grid g ix iy iz ->
        get (scaleGrid g a) ix iy iz = get g ix iy iz)
  /\ (forall b ix iy iz, in_grid g ix iy iz ->
        get (scaleGrid (scaleGrid g a) b) ix iy iz
        = f_scale (f_scale (get g ix iy iz) a) b).
Proof.
  intros _. destruct (scaleGrid_spec g a) as (Hx & Hy & Hz & Hin & Hout).
  repeat (split; [assumption|]).
  intros b ix iy iz Hgrid.
  destruct (scaleGrid_spec (scaleGrid g a) b) as (_ & _ & _ & Hin2 & _).
  rewrite Hin2, Hin; [reflexivity | exact Hgrid |].
  unfold in_grid in *. rewrite Hx, Hy, Hz. exact Hgrid.
Qed.

(** The file written by [dumpGrid] holds four bytes per cell and nothing
    else, the cell (ix, iy, iz) scaled by c at byte offset
    4 ((ix Ny + iy) Nz + iz): x is the slowest and z the fastest index. A
    file that cannot be opened is reported and nothing is written. *)
Theorem dumpGrid_layout (g : Grid1f) (c : double) :
  int_dims g ->
  dumpGrid g false c = inl NotFound
  /\ exists bytes,
      dumpGrid g true c = inr bytes
      /\ length bytes = (4 * cells g)%nat
      /\ forall ix iy iz, in_grid g ix iy iz ->
          take 4 (drop (4 * cell_number g ix iy iz) bytes)
          = f_bytes (f_scale (get g ix iy iz) c).
Proof.
  intros _. split; [reflexivity|]. eexists.
  split; [apply dumpGrid_bytes|]. split; [apply dump_length|].
  intros ix iy iz Hgrid.
  pose proof (dump_block g c [] ix iy iz Hgrid) as Hblock.
  rewrite app_nil_r in Hblock. exact Hblock.
Qed.

(** [loadGrid] reports a file that cannot be opened, and rejects a file
    whose length in whole floats differs from the number of cells before
    it writes a cell. A file it accepts is never read past its end: the
    cell (ix, iy, iz) becomes c times the float at byte offset
    4 ((ix Ny + iy) Nz + iz), and up to three bytes after the last float
    are ignored. *)
Theorem loadGrid_reads (g : Grid1f) (bytes : list Byte.byte) (c : double) :
  int_dims g ->
  Z.of_nat (cells g) < 2 ^ 64 ->
  Z.of_nat (length bytes) < 2 ^ 63 ->
  loadGrid g None c = inl NotFound
  /\ ((length bytes / 4)%nat <> cells g ->
      loadGrid g (Some bytes) c = inl SizeMismatch)
  /\ ((length bytes / 4)%nat = cells g ->
      exists g',
        loadGrid g (Some bytes) c = inr g'
        /\ getNx g' = getNx g /\ getNy g' = getNy g /\ getNz g' = getNz g
        /\ (forall ix iy iz, in_grid g ix iy iz ->
              get g' ix iy iz
              = f_scale (f_of_bytes
                           (take 4 (drop (4 * cell_number g ix iy iz) bytes)))
                  c)
        /\ (forall ix iy iz, ~ in_grid g ix iy iz ->
              get g' ix iy iz = get g ix iy iz)).
Proof.
  intros _ Hcells Hfile. split; [reflexivity|]. split.
  - apply loadGrid_mismatch; assumption.
  - apply loadGrid_cells; assumption.
Qed.

(** What [dumpGrid] writes with factor c1, [loadGrid] reads back with
    factor c2 into any grid of the same dimensions, also when up to three
    stray bytes follow: every cell ends as the original cell scaled by c1
    and then by c2, the cells of [scaleGrid] applied twice. A grid with
    another number of cells rejects the same file. *)
Theorem dump_load_round_trip (g g0 : Grid1f) (c1 c2 : double)
    (extra : list Byte.byte) :
  int_dims g ->
  getNx g0 = getNx g -> getNy g0 = getNy g -> getNz g0 = getNz g ->
  Z.of_nat (cells g) < 2 ^ 60 ->
  (length extra < 4)%nat ->
  exists bytes g',
    dumpGrid g true c1 = inr bytes
    /\ loadGrid g0 (Some (bytes ++ extra)) c2 = inr g'
    /\ (forall ix iy iz, in_grid g ix iy iz ->
          get g' ix iy iz = f_scale (f_scale (get g ix iy iz) c1) c2
          /\ get g' ix iy iz = get (scaleGrid (scaleGrid g c1) c2) ix iy iz)
    /\ (forall g1 : Grid1f,
          Z.of_nat (cells g1) < 2 ^ 64 -> cells g1 <> cells g ->
          loadGrid g1 (Some (bytes ++ extra)) c2 = inl SizeMismatch).
Proof.
  intros _ Hx Hy Hz Hcells Hextra.
  set (bytes := indices (getNx g) (getNy g) (getNz g)
                  ≫= fun idx => f_bytes (f_scale (cell g idx) c1)).
  assert (length bytes = (4 * cells g)%nat) as Hlen by apply dump_length.
  assert (cells g0 = cells g) as Hsame by (unfold cells; congruence).
  assert ((length (bytes ++ extra) / 4)%nat = cells g) as Hdiv.
  { rewrite length_app, Hlen.
    replace (4 * cells g + length extra)%nat
      with (length extra + cells g * 4)%nat by lia.
    rewrite Nat.div_add by lia. rewrite Nat.div_small by exact Hextra. lia. }
  assert (Z.of_nat (length (bytes ++ extra)) < 2 ^ 63) as Hfile
    by (rewrite length_app, Hlen; lia).
  destruct (loadGrid_cells g0 (bytes ++ extra) c2) as (g' & Hload & _ & _ & _ & Hin & _);
    [rewrite Hsame; lia | exact Hfile | rewrite Hsame; exact Hdiv |].
  exists bytes, g'. split; [apply dumpGrid_bytes|]. split; [exact Hload|].
  split.
  - intros ix iy iz Hgrid.
    assert (in_grid g0 ix iy iz) as Hgrid0
      by (unfold in_grid in *; rewrite Hx, Hy, Hz; exact Hgrid).
    assert (get g' ix iy iz = f_scale (f_scale (get g ix iy iz) c1) c2) as Hcell.
    { rewrite (Hin ix iy iz Hgrid0).
      replace (cell_number g0 ix iy iz) with (cell_number g ix iy iz)
        by (unfold cell_number; rewrite Hy, Hz; reflexivity).
      unfold bytes. rewrite (dump_block g c1 extra ix iy iz Hgrid).
      rewrite f_of_bytes_bytes. reflexivity. }
    split; [exact Hcell|]. rewrite Hcell.
    destruct (scaleGrid_spec g c1) as (Hsx & Hsy & Hsz & Hs1 & _).
    destruct (scaleGrid_spec (scaleGrid g c1) c2) as (_ & _ & _ & Hs2 & _).
    rewrite Hs2, Hs1; [reflexivity | exact Hgrid |].
    unfold in_grid in *. rewrite Hsx, Hsy, Hsz. exact Hgrid.
  - intros g1 Hcells1 Hne. apply loadGrid_mismatch; [exact Hcells1 | exact Hfile |].
    rewrite Hdiv. congruence.
Qed.

End GridProperties.

Lemma scaleGrid_cells_witness :
  int_dims sample_grid
  /\ get (scaleGrid sample_grid false) 1 0 1 = zero_bytes
  /\ get (scaleGrid sample_grid true) 2 0 0 = get sample_grid 2 0 0.
Proof.
  assert (int_dims sample_grid) as Hdims by (unfold int_dims; cbn; lia).
  split; [exact Hdims|]. split.
  - destruct (scaleGrid_cells sample_grid false Hdims)
      as (_ & _ & _ & Hin & _).
    rewrite Hin; [reflexivity | unfold in_grid; cbn; lia].
  - destruct (scaleGrid_cells sample_grid true Hdims)
      as (_ & _ & _ & _ & Hout & _).
    apply Hout. unfold in_grid. cbn. lia.
Defined.

Lemma dumpGrid_layout_witness :
  int_dims sample_grid
  /\ exists bytes,
      dumpGrid sample_grid true true = inr bytes
      /\ length bytes = 16%nat
      /\ take 4 (drop 8 bytes) = [Byte.x03; Byte.x00; Byte.x00; Byte.x00].
Proof.
  assert (int_dims sample_grid) as Hdims by (unfold int_dims; cbn; lia).
  split; [exact Hdims|].
  destruct (dumpGrid_layout sample_grid true Hdims)
    as (_ & bytes & Hdump & Hlen & Hcell).
  exists bytes. split; [exact Hdump|]. split; [exact Hlen|].
  apply (Hcell 1%nat 0%nat 0%nat). unfold in_grid. cbn. lia.
Defined.

Lemma loadGrid_reads_witness :
  int_dims sample_grid
  /\ loadGrid sample_grid
       (Some [Byte.x0a; Byte.x0b; Byte.x0c; Byte.x0d]) true
     = inl SizeMismatch
  /\ exists g',
      loadGrid sample_grid
        (Some (repeat Byte.x00 12
               ++ [Byte.x0a; Byte.x0b; Byte.x0c; Byte.x0d; Byte.xff])) true
      = inr g'
      /\ get g' 1 0 1 = (Byte.x0a, Byte.x0b, Byte.x0c, Byte.x0d).
Proof.
  assert (int_dims sample_grid) as Hdims by (unfold int_dims; cbn; lia).
  split; [exact Hdims|]. split.
  - refine (proj1 (proj2 (loadGrid_reads sample_grid _ true Hdims _ _)) _);
      cbn; lia.
  - destruct (loadGrid_reads sample_grid
                (repeat Byte.x00 12
                 ++ [Byte.x0a; Byte.x0b; Byte.x0c; Byte.x0d; Byte.xff])
                true Hdims)
      as (_ & _ & Hload); [cbn; lia | cbn; lia |].
    destruct Hload as (g' & Hload & _ & _ & _ & Hin & _); [reflexivity|].
    exists g'. split; [exact Hload|].
    rewrite (Hin 1%nat 0%nat 1%nat); [reflexivity | unfold in_grid; cbn; lia].
Defined.

Lemma dump_load_round_trip_witness :
  int_dims sample_grid
  /\ exists bytes g',
      dumpGrid sample_grid true true = inr bytes
      /\ loadGrid (scaleGrid sample_grid false) (Some (bytes ++ [Byte.xff]))
           true = inr g'
      /\ get g' 0 0 1 = (Byte.x02, Byte.x00, Byte.x00, Byte.x00).
Proof.
  assert (int_dims sample_grid) as Hdims by (unfold int_dims; cbn; lia).
  split; [exact Hdims|].
  destruct (dump_load_round_trip sample_grid (scaleGrid sample_grid false)
              true true [Byte.xff] Hdims)
    as (bytes & g' & Hdump & Hload & Hin & _);
    [reflexivity | reflexivity | reflexivity | cbn; lia | cbn; lia |].
  exists bytes, g'. split; [exact Hdump|]. split; [exact Hload|].
  rewrite (proj1 (Hin 0%nat 0%nat 1%nat ltac:(unfold in_grid; cbn; lia))).
  reflexivity.
Defined.
